(** * Ticket_Sorter: the OCR ticket extractor, embedded and verified

    The repository holds two variants of one desktop program,
    [src/ticket_app.py] and [src/ticket_sorter.py].  Each reads scanned
    tickets (images or PDFs), recognises the text of every page, pulls
    fifteen named fields out of the text with regular expressions and
    hands the rows to a spreadsheet writer.

    The development follows the source top down:
    - [Py]: the parts of Python the program leans on ([str], [re],
      exceptions, [float]);
    - [Worker]: the external engines and the text of
      [ProcessingWorker.run], which the two files share;
    - [ticket_app] and [ticket_sorter]: the two files;
    - [Gui]: the button/worker state machine of [MainWindow];
    - the properties of the specification. *)

From Stdlib Require Import ZArith NArith Ascii String DecimalString List Lia Floats.
From stdpp Require Import gmap strings list.

Set Default Proof Using "Type".

(** A Python [str]: a sequence of Unicode code points. *)
Abbreviation pystr := (list N).

(** ** Python: strings, exceptions, regular expressions *)
Module Py.

(** A [str] literal of the source; every literal the program computes
    with is ASCII. *)
Definition str (s : string) : pystr :=
  N_of_ascii <$> list_ascii_of_string s.
Global Arguments str : simpl never.

(** The result of a call that may raise: [Raise msg] is an [Exception]
    whose [str(e)] is [msg]. *)
Inductive exc (A : Type) : Type :=
| Ok (a : A)
| Raise (msg : pystr).
Arguments Ok {A} a.
Arguments Raise {A} msg.

Definition exc_bind {A B} (m : exc A) (f : A → exc B) : exc B :=
  match m with
  | Ok a => f a
  | Raise e => Raise e
  end.

#[global] Instance exc_ret : MRet exc := @Ok.
#[global] Instance exc_mbind : MBind exc := λ A B f m, exc_bind m f.

(** The Unicode tables behind [\d], [re.IGNORECASE] and [str.lower].
    They change with the Unicode version of the interpreter, so the
    program is verified for every such table. *)
Class UnicodeData := {
  (** [Py_UNICODE_ISDECIMAL]: the characters [\d] matches. *)
  isdecimal : N → bool;
  (** [ignorecase_eq p c]: the text character [c] matches the cased
      pattern character [p] under [re.IGNORECASE]. *)
  ignorecase_eq : N → N → bool;
  (** [str.lower()]. *)
  str_lower : pystr → pystr
}.

(** [Py_UNICODE_ISSPACE]: the characters [str.strip()] removes and [\s]
    matches. *)
Definition isspace (c : N) : bool :=
  ((0x09 <=? c) && (c <=? 0x0D) || (0x1C <=? c) && (c <=? 0x20)
   || (c =? 0x85) || (c =? 0xA0) || (c =? 0x1680)
   || (0x2000 <=? c) && (c <=? 0x200A)
   || (c =? 0x2028) || (c =? 0x2029) || (c =? 0x202F)
   || (c =? 0x205F) || (c =? 0x3000))%N.

(** [str.lstrip()], [str.rstrip()] and [str.strip()] without argument. *)
Fixpoint lstrip (s : pystr) : pystr :=
  match s with
  | c :: s' => if isspace c then lstrip s' else s
  | [] => []
  end.

Definition rstrip (s : pystr) : pystr := reverse (lstrip (reverse s)).

Definition strip (s : pystr) : pystr := rstrip (lstrip s).

(** A string with no whitespace at either end. *)
Definition trimmed (s : pystr) : Prop :=
  (∀ c, head s = Some c → isspace c = false) ∧
  (∀ c, last s = Some c → isspace c = false).

(** [s.endswith(suffix)]. *)
Definition endswith (s suffix : pystr) : bool :=
  bool_decide (drop (length s - length suffix) s = suffix).

(** *** The regular expressions of the source

    The patterns of [parse_fields] are built from literal characters,
    [.], [\s], [\d], a two-member set [[\d\.]], greedy repetitions of one
    of these, and one capture group.  [regex] is what [sre_parse] makes
    of such a pattern. *)
Inductive charset : Type :=
| Any                      (* .   every character but a newline *)
| Space                    (* \s *)
| Digit                    (* \d *)
| Lit (p : N)              (* a literal character *)
| Alt (a b : charset).     (* the members of a [...] set *)

Inductive regex : Type :=
| Empty
| One (cs : charset)
| Cat (r1 r2 : regex)
| Repeat (lo : nat) (hi : option nat) (cs : charset)   (* greedy *)
| Group (i : nat) (r : regex).

(** The literal text [s] as a pattern. *)
Definition lit (s : string) : regex :=
  foldr (λ c r, Cat (One (Lit c)) r) Empty (str s).

(** A pattern as the sequence of its items; [x*] and [x+]. *)
Definition seq_of (items : list regex) : regex := foldr Cat Empty items.
Definition star (cs : charset) : regex := Repeat 0 None cs.
Definition plus (cs : charset) : regex := Repeat 1 None cs.

(** Group [i] lies on every path through [r]: a match of [r] sets it. *)
Fixpoint captures (i : nat) (r : regex) : bool :=
  match r with
  | Group j r' => bool_decide (i = j) || captures i r'
  | Cat r1 r2 => captures i r1 || captures i r2
  | _ => false
  end.

(** A match object: where the match lies in the text and what each
    group captured. *)
Record Match := {
  m_start : nat;
  m_end : nat;
  m_groups : gmap nat pystr
}.

(** [match.group(i)] for a group of the pattern, [i ≥ 1]: [None] when
    the group took no part in the match. *)
Definition group (m : Match) (i : nat) : option pystr := m_groups m !! i.

(** Of the ASCII characters, the letters are the cased ones; the
    patterns of the source hold ASCII characters only. *)
Definition ascii_letter (p : N) : bool :=
  ((0x41 <=? p) && (p <=? 0x5A) || (0x61 <=? p) && (p <=? 0x7A))%N.

Section Matcher.
Context `{UnicodeData}.
(** The flag [re.IGNORECASE]. *)
Variable ignorecase : bool.

(** A literal: compared case-insensitively when it is cased and the
    flag is set, exactly otherwise ([sre_compile._compile]). *)
Definition lit_match (p c : N) : bool :=
  if ignorecase && ascii_letter p then ignorecase_eq p c else (p =? c)%N.

Fixpoint cs_match (cs : charset) (c : N) : bool :=
  match cs with
  | Any => negb (c =? 0x0A)%N
  | Space => isspace c
  | Digit => isdecimal c
  | Lit p => lit_match p c
  | Alt a b => cs_match a c || cs_match b c
  end.

(** The number of leading characters of [s] that [p] accepts. *)
Fixpoint run_length (p : N → bool) (s : pystr) : nat :=
  match s with
  | c :: s' => if p c then S (run_length p s') else 0
  | [] => 0
  end.

(** What a greedy repetition takes first: as much as it can, up to
    its upper bound. *)
Definition greedy (p : N → bool) (hi : option nat) (s : pystr) : nat :=
  match hi with
  | Some h => h `min` run_length p s
  | None => run_length p s
  end.

(** Backtracking: try the continuation with [n] repetitions, then
    [n - 1], ... down to [lo]. *)
Fixpoint backoff {A} (lo n : nat) (k : nat → option A) : option A :=
  if n <? lo then None
  else match k n with
       | Some r => Some r
       | None => match n with
                 | O => None
                 | S n' => backoff lo n' k
                 end
       end.

(** The backtracking matcher: match [r] at the head of [s], then go on
    with [k] on the rest of the text and the groups captured so far. *)
Fixpoint match_at {A} (r : regex) (s : pystr) (g : gmap nat pystr)
    (k : pystr → gmap nat pystr → option A) : option A :=
  match r with
  | Empty => k s g
  | One cs =>
      match s with
      | c :: s' => if cs_match cs c then k s' g else None
      | [] => None
      end
  | Cat r1 r2 => match_at r1 s g (λ s' g', match_at r2 s' g' k)
  | Repeat lo hi cs =>
      backoff lo (greedy (cs_match cs) hi s) (λ n, k (drop n s) g)
  | Group i r' =>
      match_at r' s g
        (λ s' g', k s' (<[i := take (length s - length s') s]> g'))
  end.

(** What it means for [r] to match at the head of [s]: [matches r s g
    s' g'] when [r] can take the characters of [s] up to the rest [s'],
    turning the captured groups [g] into [g'].  [match_at] walks these
    matches in the order of the backtracking engine. *)
Inductive matches : regex → pystr → gmap nat pystr → pystr → gmap nat pystr → Prop :=
| matches_empty s g :
    matches Empty s g s g
| matches_one cs c s g :
    cs_match cs c = true →
    matches (One cs) (c :: s) g s g
| matches_cat r1 r2 s g s1 g1 s2 g2 :
    matches r1 s g s1 g1 →
    matches r2 s1 g1 s2 g2 →
    matches (Cat r1 r2) s g s2 g2
| matches_repeat lo hi cs w s g :
    Forall (λ c, cs_match cs c = true) w →
    lo ≤ length w →
    (∀ h, hi = Some h → length w ≤ h) →
    matches (Repeat lo hi cs) (w ++ s) g s g
| matches_group i r w s g g' :
    matches r (w ++ s) g s g' →
    matches (Group i r) (w ++ s) g s (<[i := w]> g').

(** [re.search]: the match at the leftmost position that has one. *)
Fixpoint search_from (r : regex) (pos : nat) (s : pystr) : option Match :=
  match match_at r s ∅ (λ s' g, Some (s', g)) with
  | Some (s', g) =>
      Some {| m_start := pos; m_end := pos + (length s - length s');
              m_groups := g |}
  | None =>
      match s with
      | [] => None
      | _ :: s' => search_from r (S pos) s'
      end
  end.

End Matcher.

Definition re_search `{UnicodeData} (pattern : regex) (text : pystr)
    (ignorecase : bool) : option Match :=
  search_from ignorecase pattern 0 text.

(** *** Numbers

    [int -> float]: the nearest double (exact below 2^53). *)
Definition float_of_int (z : Z) : float :=
  SF2Prim (binary_normalize prec emax z 0 false).

(** [a / b] on two [int]s is true division: the correctly rounded
    quotient, which for operands below 2^53 is the IEEE quotient of the
    two operands as doubles. *)
Definition truediv (a b : Z) : float :=
  PrimFloat.div (float_of_int a) (float_of_int b).

(** [int(x)] on a [float] cuts the fraction off.  It raises on an
    infinity or a NaN; the model gives 0 there. *)
Definition int_of_float (x : float) : Z :=
  match Prim2SF x with
  | S754_finite s m e =>
      let v := Z.shiftl (Z.pos m) e in if s then (- v)%Z else v
  | _ => 0%Z
  end.

(** [str(n)] for an [int] that is not negative. *)
Definition str_of_nat (n : nat) : pystr :=
  str (NilZero.string_of_uint (Nat.to_uint n)).

End Py.

(** The Unicode tables cut down to ASCII: on code points below 128 they
    agree with those of every Unicode version.  The worked examples
    below run on ASCII texts with them. *)
Definition ascii_lower (c : N) : N :=
  if ((0x41 <=? c) && (c <=? 0x5A))%N then (c + 32)%N else c.

Definition ascii_tables : Py.UnicodeData := {|
  Py.isdecimal c := ((0x30 <=? c) && (c <=? 0x39))%N;
  Py.ignorecase_eq p c := (ascii_lower p =? ascii_lower c)%N;
  Py.str_lower s := ascii_lower <$> s
|}.

(** A row: a Python [dict] from field name to extracted value. *)
Abbreviation row := (gmap string pystr).

(** The loop of [parse_fields], shared by the two files: for each
    [(field, pattern)] of the table, in order, search the text and
    store the stripped first group, or ["N/A"] without a match.
    [match.group(1)] is [None] for a group that took no part in the
    match, and [None.strip()] raises. *)
Section ParseLoop.
Context `{Py.UnicodeData}.
Import Py.

Fixpoint parse_loop (items : list (string * regex)) (text : pystr)
    (r : row) : exc row :=
  match items with
  | [] => Ok r
  | (field, pattern) :: rest =>
      match re_search pattern text true with
      | Some m =>
          match group m 1 with
          | Some g => parse_loop rest text (<[field := strip g]> r)
          | None =>
              Raise (str "'NoneType' object has no attribute 'strip'")
          end
      | None => parse_loop rest text (<[field := str "N/A"]> r)
      end
  end.

End ParseLoop.

(** ** The worker: engines, signals and the text the two files share *)
Module Worker.
Import Py.

(** The engines outside the program: the PDF rasteriser
    ([pdf2image.convert_from_path]), the image loader
    ([PIL.Image.open]), the recogniser
    ([pytesseract.image_to_string]) and [os.path.basename].  Each call
    either returns or raises; the program is verified for every
    behaviour of the engines. *)
Class Engines := {
  image : Type;
  convert_from_path : pystr → exc (list image);
  Image_open : pystr → exc image;
  image_to_string : image → exc pystr;
  basename : pystr → pystr
}.

(** What a run does that can be seen from outside: the calls to the
    engines and the signals of [ProcessingWorker]. *)
Inductive event `{Engines} : Type :=
| Rasterize (path : pystr)          (* convert_from_path(path) *)
| OpenImage (path : pystr)          (* Image.open(path) *)
| Recognize (img : image)           (* image_to_string(img) *)
| Status (msg : pystr)              (* self.status.emit(msg) *)
| Progress (v : Z)                  (* self.progress.emit(v) *)
| Finished (rows : list row).       (* self.finished.emit(rows) *)

(** A computation: the events it produced, in order, and its result or
    the exception it raised. *)
Definition io `{Engines} (A : Type) : Type := (list event * exc A)%type.

Section Monad.
Context `{Engines}.

Definition ret {A} (a : A) : io A := ([], Ok a).

Definition bind {A B} (m : io A) (f : A → io B) : io B :=
  match m with
  | (t, Ok a) => let '(t', r) := f a in (t ++ t', r)
  | (t, Raise e) => (t, Raise e)
  end.

(** A call to an engine, an emitted signal, [raise Exception(msg)], and
    a value computed by a function that may raise. *)
Definition call {A} (ev : event) (res : exc A) : io A := ([ev], res).
Definition emit (ev : event) : io unit := ([ev], Ok ()).
Definition raise {A} (msg : pystr) : io A := ([], Raise msg).
Definition lift {A} (res : exc A) : io A := ([], res).

(** [try: m  except Exception as e: h e]. *)
Definition try_except {A} (m : io A) (h : pystr → io A) : io A :=
  match m with
  | (t, Raise e) => let '(t', r) := h e in (t ++ t', r)
  | (t, Ok a) => (t, Ok a)
  end.

(** [for x in xs: acc = body x acc], left to right; an exception ends
    the loop. *)
Fixpoint for_each {A S} (xs : list A) (acc : S) (body : A → S → io S)
    : io S :=
  match xs with
  | [] => ret acc
  | x :: xs' => bind (body x acc) (λ acc', for_each xs' acc' body)
  end.

End Monad.

#[global] Instance io_ret `{Engines} : MRet io := @ret _.
#[global] Instance io_bind `{Engines} : MBind io := λ A B f m, bind m f.

Section Run.
Context `{UnicodeData} `{Engines}.

(** [file_path.lower().endswith(".pdf")]. *)
Definition is_pdf (file_path : pystr) : bool :=
  endswith (str_lower file_path) (str ".pdf").

(** [int(((i + 1) / len(self.file_paths)) * 100)], for [k = i + 1]. *)
Definition prog_val (k n : nat) : Z :=
  int_of_float
    (PrimFloat.mul (truediv (Z.of_nat k) (Z.of_nat n)) (float_of_int 100)).

(** [enumerate(xs)]. *)
Definition enumerate {A} (xs : list A) : list (nat * A) :=
  zip (seq 0 (length xs)) xs.

(** The text of [ProcessingWorker.run], the same in both files, over
    the [process_file] of the file it stands in. *)
Definition worker_run (process_file : pystr → io (list row))
    (file_paths : list pystr) : io unit :=
  all_results ← for_each (enumerate file_paths) [] (λ '(i, path) all_results,
      let filename := basename path in
      emit (Status (str "Processing (" ++ str_of_nat (i + 1) ++ str "/"
                      ++ str_of_nat (length file_paths) ++ str "): "
                      ++ filename)) ;;
      all_results' ← try_except
          (data_list ← process_file path;
           ret (all_results ++ data_list))
          (λ e, emit (Status (str "Error in " ++ filename ++ str ": " ++ e)) ;;
                ret all_results);
      let v := prog_val (i + 1) (length file_paths) in
      emit (Progress v) ;;
      ret all_results');
  emit (Finished all_results).

End Run.

(** *** The run, described

    The words of the specification about a run, as functions of the
    engines' answers; the properties below compare the program with
    them. *)
Section Described.
Context `{UnicodeData} `{Engines}.
Variable parse_fields : pystr → exc row.
Variable process_file : pystr → io (list row).

(** The first call of [process_file]: the rasteriser for a PDF, the
    image loader otherwise. *)
Definition load_event (path : pystr) : event :=
  if is_pdf path then Rasterize path else OpenImage path.

(** The images of a file: the pages of a PDF, the one image otherwise. *)
Definition pages (path : pystr) : exc (list image) :=
  if is_pdf path then convert_from_path path
  else img ← Image_open path; mret [img].

(** The images the recogniser is run on: each in turn, up to and
    including the first it raises on. *)
Fixpoint attempted (imgs : list image) : list image :=
  match imgs with
  | [] => []
  | img :: rest =>
      img :: match image_to_string img with
             | Ok _ => attempted rest
             | Raise _ => []
             end
  end.

(** The rows of a file, one per page in page order; an exception when
    the file cannot be read or a page cannot be recognised. *)
Definition page_rows (path : pystr) : exc (list row) :=
  imgs ← pages path;
  texts ← mapM image_to_string imgs;
  mapM parse_fields texts.

(** What a file adds to the result: its rows, or nothing when
    processing it raised. *)
Definition file_rows (path : pystr) : list row :=
  match page_rows path with
  | Ok rows => rows
  | Raise _ => []
  end.

(** The same, read off [process_file]. *)
Definition returned_rows (path : pystr) : list row :=
  match (process_file path).2 with
  | Ok rows => rows
  | Raise _ => []
  end.

(** What the loop of [run] does for the [k]-th of [n] files: the
    status line, the events of [process_file], the error line when it
    raised, the progress value. *)
Definition file_events (n k : nat) (path : pystr) : list event :=
  [Status (str "Processing (" ++ str_of_nat k ++ str "/" ++ str_of_nat n
           ++ str "): " ++ basename path)]
  ++ (process_file path).1
  ++ match (process_file path).2 with
     | Ok _ => []
     | Raise e => [Status (str "Error in " ++ basename path ++ str ": " ++ e)]
     end
  ++ [Progress (prog_val k n)].

(** The same for the files [paths], the first of them the [k]-th. *)
Fixpoint files_events (n k : nat) (paths : list pystr) : list event :=
  match paths with
  | [] => []
  | path :: rest => file_events n k path ++ files_events n (S k) rest
  end.

End Described.

(** The progress values among the events, in order. *)
Definition progress_values `{Engines} (t : list event) : list Z :=
  omap (λ e, match e with Progress v => Some v | _ => None end) t.

(** The lists [finished] was emitted with, in order. *)
Definition finished_lists `{Engines} (t : list event) : list (list row) :=
  omap (λ e, match e with Finished rows => Some rows | _ => None end) t.

(** The event is a call to an engine. *)
Definition is_call `{Engines} (e : event) : bool :=
  match e with
  | Rasterize _ | OpenImage _ | Recognize _ => true
  | _ => false
  end.

(** The status lines among the events, in order. *)
Definition status_lines `{Engines} (t : list event) : list pystr :=
  omap (λ e, match e with Status s => Some s | _ => None end) t.

(** The calls to the engines among the events, in order. *)
Definition engine_calls `{Engines} (t : list event) : list event :=
  filter (λ e, is_call e = true) t.

End Worker.

(** ** The window

    [MainWindow] as far as the worker is concerned: the upload button,
    the progress bar, the log box and the worker threads that were
    started and have not finished yet.  Of the log box the program
    only calls [clear] and [append]; the window records the texts it
    passed to [append] since the last [clear], as they were passed.
    What the widget makes of a text (a [QTextEdit] reads one that looks
    like HTML as rich text) is left to Qt. *)
Module Gui.
Import Py.

Record window := {
  btn_upload_enabled : bool;      (* self.btn_upload.isEnabled() *)
  pbar : Z;                       (* self.pbar.value() *)
  log_output : list pystr;        (* the texts given to
                                     self.log_output.append since the
                                     last clear() *)
  workers : nat                   (* workers started and not yet finished *)
}.

(** The window [MainWindow.__init__] builds: the button is enabled (a
    [QPushButton] is until told otherwise) and no worker has been
    started. *)
Definition initial (w : window) : Prop :=
  btn_upload_enabled w = true ∧ workers w = 0.

Definition set_enabled (b : bool) (w : window) : window :=
  {| btn_upload_enabled := b; pbar := pbar w;
     log_output := log_output w; workers := workers w |}.

Definition set_value (v : Z) (w : window) : window :=
  {| btn_upload_enabled := btn_upload_enabled w; pbar := v;
     log_output := log_output w; workers := workers w |}.

(** [self.log_output.clear()]. *)
Definition log_clear (w : window) : window :=
  {| btn_upload_enabled := btn_upload_enabled w; pbar := pbar w;
     log_output := []; workers := workers w |}.

(** [self.log_output.append(s)]: one more text passed to the box. *)
Definition log_append (s : pystr) (w : window) : window :=
  {| btn_upload_enabled := btn_upload_enabled w; pbar := pbar w;
     log_output := log_output w ++ [s]; workers := workers w |}.

(** [self.worker = ProcessingWorker(files); ...; self.worker.start()]. *)
Definition worker_start (w : window) : window :=
  {| btn_upload_enabled := btn_upload_enabled w; pbar := pbar w;
     log_output := log_output w; workers := S (workers w) |}.

(** A worker is done once its [finished] signal, the last statement of
    [run], has been delivered. *)
Definition worker_done (w : window) : window :=
  {| btn_upload_enabled := btn_upload_enabled w; pbar := pbar w;
     log_output := log_output w; workers := pred (workers w) |}.

(** What the event loop delivers to the window. *)
Inductive action : Type :=
| Clicked (files : list pystr)
    (* the button is clicked and the file dialog answers [files] *)
| StatusSignal (s : pystr)
| ProgressSignal (v : Z)
| FinishedSignal (results : list row) (save_path : pystr) (written : exc ()).
    (* [finished] arrives; the save dialog answers [save_path] and
       [df.to_excel] returns or raises *)

Section Steps.
(** The two slots of the file at hand. *)
Variable handle_upload : list pystr → window → window.
Variable handle_finished : list row → pystr → exc () → window → window.

(** One step of the event loop.  A disabled [QPushButton] emits no
    [clicked]; a signal of a worker arrives only while a worker that
    was started has not finished. *)
Inductive step : window → action → window → Prop :=
| step_clicked w files :
    btn_upload_enabled w = true →
    step w (Clicked files) (handle_upload files w)
| step_status w s :
    0 < workers w →
    step w (StatusSignal s) (log_append s w)
| step_progress w v :
    0 < workers w →
    step w (ProgressSignal v) (set_value v w)
| step_finished w results save_path written :
    0 < workers w →
    step w (FinishedSignal results save_path written)
      (handle_finished results save_path written (worker_done w)).

(** The windows the program can get to. *)
Inductive reachable : window → Prop :=
| reachable_initial w : initial w → reachable w
| reachable_step w a w' : reachable w → step w a w' → reachable w'.

End Steps.

(** The slots [handle_upload] connects to the signals of the worker:
    [status] to [log_output.append], [progress] to [pbar.setValue] and
    [finished] to [handle_finished].  [deliver] hands the window the
    signals of a trace in order; a call to an engine is no signal. *)
Section Connected.
Context `{Worker.Engines}.
Variable handle_finished : list row → pystr → exc () → window → window.
Variable save_path : pystr.
Variable written : exc ().

Definition deliver_signal (w : window) (e : Worker.event) : window :=
  match e with
  | Worker.Status s => log_append s w
  | Worker.Progress v => set_value v w
  | Worker.Finished rows =>
      handle_finished rows save_path written (worker_done w)
  | _ => w
  end.

Definition deliver (t : list Worker.event) (w : window) : window :=
  foldl deliver_signal w t.

End Connected.

(** A stretch of the event loop: the actions it takes one after
    another, each a [step] from the window the one before left. *)
Section Runs.
Variable handle_upload : list pystr → window → window.
Variable handle_finished : list row → pystr → exc () → window → window.

Inductive steps : window → list action → window → Prop :=
| steps_nil w : steps w [] w
| steps_cons w a w' l w'' :
    step handle_upload handle_finished w a w' →
    steps w' l w'' →
    steps w (a :: l) w''.

End Runs.

(** The action a signal of the worker arrives as; a call to an engine
    is no signal.  [finished] arrives together with the answers
    [handle_finished] gets from the save dialog and from [df.to_excel]. *)
Definition signal `{Worker.Engines} (save_path : pystr) (written : exc ())
    (e : Worker.event) : option action :=
  match e with
  | Worker.Status s => Some (StatusSignal s)
  | Worker.Progress v => Some (ProgressSignal v)
  | Worker.Finished rows => Some (FinishedSignal rows save_path written)
  | _ => None
  end.

(** The signals of a trace, in order. *)
Definition signals `{Worker.Engines} (save_path : pystr) (written : exc ())
    (t : list Worker.event) : list action :=
  omap (signal save_path written) t.

(** The button is enabled exactly while no worker runs, and at most
    one worker runs. *)
Definition button_tracks_worker (w : window) : Prop :=
  workers w = if btn_upload_enabled w then 0 else 1.

(** The action starts a worker: a click with a selection that is not
    empty. *)
Definition starts_worker (a : action) : bool :=
  match a with
  | Clicked (_ :: _) => true
  | _ => false
  end.

(** The action runs [handle_finished]. *)
Definition runs_handle_finished (a : action) : bool :=
  match a with
  | FinishedSignal _ _ _ => true
  | _ => false
  end.

End Gui.

(** ** src/ticket_app.py *)
Module ticket_app.
Import Py Worker Gui.

(** The table [patterns] of [TicketLogic.parse_fields], in the order of
    the source. *)
Definition patterns : list (string * regex) :=
  [ ("Ticket_ID", Group 1 (Repeat 9 (Some 10) Digit));
    ("Date_Time", seq_of [lit "Ticket Date/Time:"; star Space; Group 1 (star Any)]);
    ("Applicant", seq_of [lit "Applicant:"; star Space; Group 1 (star Any)]);
    ("Disaster", seq_of [lit "Disaster:"; star Space; Group 1 (star Any)]);
    ("Program", seq_of [lit "Program:"; star Space; Group 1 (star Any)]);
    ("Contractor", seq_of [lit "Contractor:"; star Space; Group 1 (star Any)]);
    ("Sub-Contractor", seq_of [lit "Sub-Contractor:"; star Space; Group 1 (star Any)]);
    ("Crew", seq_of [lit "Crew:"; star Space; Group 1 (star Any)]);
    ("Supervisor", seq_of [lit "Supervisor:"; star Space; Group 1 (star Any)]);
    ("Hazard_Type", seq_of [lit "Hazard Type:"; star Space; Group 1 (star Any)]);
    ("GPS", seq_of [lit "GPS(Lat,Lgn):"; star Space; Group 1 (star Any)]);
    ("Address", seq_of [lit "Address:"; star Space; Group 1 (star Any)]);
    ("Measure", seq_of [lit "Measure:"; star Space; Group 1 (plus (Alt Digit (Lit 0x2E)))]);
    ("Unit_Count", seq_of [lit "Unit Count:"; star Space; Group 1 (plus Digit)]);
    ("Monitor", seq_of [lit "Monitor:"; star Space; Group 1 (star Any)]) ].

Section Logic.
Context `{UnicodeData} `{Engines}.

(** [TicketLogic.parse_fields]. *)
Definition parse_fields (text : pystr) : exc row :=
  parse_loop patterns text ∅.

(** [TicketLogic.process_file]: the whole body stands in a [try] whose
    handler raises [Exception(f"OCR Error: {str(e)}")]. *)
Definition process_file (file_path : pystr) : io (list row) :=
  try_except
    (images ← (if is_pdf file_path
              then call (Rasterize file_path) (convert_from_path file_path)
              else img ← call (OpenImage file_path) (Image_open file_path);
                   mret [img]);
     for_each images [] (λ img extracted_data,
       text_block ← call (Recognize img) (image_to_string img);
       fields ← lift (parse_fields text_block);
       mret (extracted_data ++ [fields])))
    (λ e, raise (str "OCR Error: " ++ e)).

(** [ProcessingWorker.run]. *)
Definition run (file_paths : list pystr) : io unit :=
  worker_run process_file file_paths.

End Logic.
(** [MainWindow.handle_upload], after the file dialog has answered
    [files]. *)
Definition handle_upload (files : list pystr) (w : window) : window :=
  match files with
  | [] => w
  | _ :: _ => worker_start (set_value 0 (log_clear (set_enabled false w)))
  end.

(** [MainWindow.handle_finished]. *)
Definition handle_finished (results : list row) (save_path : pystr)
    (written : exc ()) (w : window) : window :=
  let w := set_enabled true w in
  match results with
  | [] => log_append ([0x0A; 0x274C]%N ++ str " Extraction failed or no data found.") w
  | _ :: _ =>
      match save_path with
      | [] => w
      | _ :: _ =>
          match written with
          | Ok _ =>
              log_append ([0x0A; 0x2705]%N ++ str " SUCCESS! File saved to:"
                          ++ [0x0A]%N ++ save_path) w
          | Raise e =>
              log_append ([0x0A; 0x274C]%N ++ str " Error saving Excel: " ++ e) w
          end
      end
  end.

End ticket_app.

(** ** src/ticket_sorter.py *)
Module ticket_sorter.
Import Py Worker Gui.

(** The table [patterns] of [TicketLogic.parse_fields], in the order of
    the source. *)
Definition patterns : list (string * regex) :=
  [ ("Ticket_ID", Group 1 (Repeat 9 (Some 10) Digit));
    ("Date_Time", seq_of [lit "Ticket Date/Time:"; star Space; Group 1 (star Any)]);
    ("Applicant", seq_of [lit "Applicant:"; star Space; Group 1 (star Any)]);
    ("Disaster", seq_of [lit "Disaster:"; star Space; Group 1 (star Any)]);
    ("Program", seq_of [lit "Program:"; star Space; Group 1 (star Any)]);
    ("Contractor", seq_of [lit "Contractor:"; star Space; Group 1 (star Any)]);
    ("Sub-Contractor", seq_of [lit "Sub-Contractor:"; star Space; Group 1 (star Any)]);
    ("Crew", seq_of [lit "Crew:"; star Space; Group 1 (star Any)]);
    ("Supervisor", seq_of [lit "Supervisor:"; star Space; Group 1 (star Any)]);
    ("Hazard_Type", seq_of [lit "Hazard Type:"; star Space; Group 1 (star Any)]);
    ("GPS", seq_of [lit "GPS(Lat,Lgn):"; star Space; Group 1 (star Any)]);
    ("Address", seq_of [lit "Address:"; star Space; Group 1 (star Any)]);
    ("Measure", seq_of [lit "Measure:"; star Space; Group 1 (plus (Alt Digit (Lit 0x2E)))]);
    ("Unit_Count", seq_of [lit "Unit Count:"; star Space; Group 1 (plus Digit)]);
    ("Monitor", seq_of [lit "Monitor:"; star Space; Group 1 (star Any)]) ].

Section Logic.
Context `{UnicodeData} `{Engines}.

(** [TicketLogic.parse_fields]. *)
Definition parse_fields (text : pystr) : exc row :=
  parse_loop patterns text ∅.

(** [TicketLogic.process_file]. *)
Definition process_file (file_path : pystr) : io (list row) :=
  images ← (if is_pdf file_path
            then call (Rasterize file_path) (convert_from_path file_path)
            else img ← call (OpenImage file_path) (Image_open file_path);
                 mret [img]);
  for_each images [] (λ img extracted_data,
    text_block ← call (Recognize img) (image_to_string img);
    fields ← lift (parse_fields text_block);
    mret (extracted_data ++ [fields])).

(** [ProcessingWorker.run]. *)
Definition run (file_paths : list pystr) : io unit :=
  worker_run process_file file_paths.

End Logic.
(** [MainWindow.handle_upload], after the file dialog has answered
    [files]. *)
Definition handle_upload (files : list pystr) (w : window) : window :=
  match files with
  | [] => w
  | _ :: _ => worker_start (set_value 0 (log_clear (set_enabled false w)))
  end.

(** [MainWindow.handle_finished]; an exception of [df.to_excel] leaves
    the slot before the last line. *)
Definition handle_finished (results : list row) (save_path : pystr)
    (written : exc ()) (w : window) : window :=
  let w := set_enabled true w in
  match results with
  | [] => log_append ([0x0A; 0x274C]%N ++ str " Extraction failed.") w
  | _ :: _ =>
      match save_path with
      | [] => w
      | _ :: _ =>
          match written with
          | Ok _ =>
              log_append ([0x0A; 0x2705]%N ++ str " SUCCESS! Saved to:"
                          ++ [0x0A]%N ++ save_path) w
          | Raise e => w
          end
      end
  end.

End ticket_sorter.


(** ** A desk to try the program at

    Engines for the worked examples: two PDFs, one of them with a page
    the recogniser gives up on, and one readable image; anything else
    cannot be opened. *)
Inductive scan : Type :=
| Page (text : pystr)
| Smudge.

Definition desk : Worker.Engines := {|
  Worker.image := scan;
  Worker.convert_from_path p :=
    if bool_decide (p = Py.str "two.pdf")
    then Py.Ok [Page (Py.str "Crew: A7"); Page (Py.str "Crew: A7")]
    else if bool_decide (p = Py.str "torn.PDF")
    then Py.Ok [Smudge; Page (Py.str "Crew: B2")]
    else Py.Raise (Py.str "Unable to get page count.");
  Worker.Image_open p :=
    if bool_decide (p = Py.str "ok.png")
    then Py.Ok (Page (Py.str "Unit Count: 3"))
    else Py.Raise (Py.str "cannot identify image file");
  Worker.image_to_string img :=
    match img with
    | Page t => Py.Ok t
    | Smudge => Py.Raise (Py.str "tesseract failed")
    end;
  Worker.basename p := p
|}.

(** The same desk with one more PDF on it, [half.pdf]: its first page
    reads well, its second the recogniser gives up on. *)
Definition worn_desk : Worker.Engines := {|
  Worker.image := scan;
  Worker.convert_from_path p :=
    if bool_decide (p = Py.str "half.pdf")
    then Py.Ok [Page (Py.str "Crew: A7"); Smudge]
    else @Worker.convert_from_path desk p;
  Worker.Image_open := @Worker.Image_open desk;
  Worker.image_to_string := @Worker.image_to_string desk;
  Worker.basename := @Worker.basename desk
|}.

(** A window as [MainWindow.__init__] leaves it: the button enabled, the
    bar never set (a new [QProgressBar] reports [-1]), nothing passed
    to the log box, no worker. *)
Definition fresh_window : Gui.window :=
  {| Gui.btn_upload_enabled := true; Gui.pbar := (-1)%Z;
     Gui.log_output := []; Gui.workers := 0 |}.

(** ** The words of the specification about a row *)

(** The fifteen field names of the specification. *)
Definition field_names : list string :=
  [ "Ticket_ID"; "Date_Time"; "Applicant"; "Disaster"; "Program";
    "Contractor"; "Sub-Contractor"; "Crew"; "Supervisor"; "Hazard_Type";
    "GPS"; "Address"; "Measure"; "Unit_Count"; "Monitor" ].

(** The row [r] holds for the field of [fp] what its pattern extracts
    from [text]: the first group of the leftmost match, stripped, or
    ["N/A"] when the pattern matches nowhere. *)
Definition extracted `{Py.UnicodeData} (text : pystr) (r : row)
    (fp : string * Py.regex) : Prop :=
  match Py.re_search fp.2 text true with
  | Some m => ∃ g, Py.group m 1 = Some g ∧ r !! fp.1 = Some (Py.strip g)
  | None => r !! fp.1 = Some (Py.str "N/A")
  end.

(** A value as [parse_fields] stores them: the marker or a stripped
    string. *)
Definition na_or_trimmed (v : pystr) : Prop :=
  v = Py.str "N/A" ∨ Py.trimmed v.

(** The text reads as [label] somewhere, letters compared as
    [re.IGNORECASE] compares them. *)
Definition reads_as `{Py.UnicodeData} (label : string) (lab : pystr) : Prop :=
  Forall2 (λ p c, Py.lit_match true p c = true) (Py.str label) lab.

(** [v] is what stands after the first [label] of [text].  [blanks]
    are all the blanks that follow the label, line ends among them: what
    comes after them, if anything, is no blank.  [g] is the line reached
    there, up to its end: it holds no line end, and what comes after
    it, if anything, is one.  [v] is [g], stripped.  So a label with
    nothing but blanks after it on its line takes its value from the
    next line that is not blank. *)
Definition line_after_label `{Py.UnicodeData} (text : pystr) (label : string)
    (v : pystr) : Prop :=
  ∃ before lab blanks g after,
    text = before ++ lab ++ blanks ++ g ++ after ∧
    reads_as label lab ∧
    (∀ before' lab' after',
       text = before' ++ lab' ++ after' → reads_as label lab' →
       length before ≤ length before') ∧
    Forall (λ c, Py.isspace c = true) blanks ∧
    (∀ c, head (g ++ after) = Some c → Py.isspace c = false) ∧
    (0x0A%N ∉ g) ∧
    (∀ c, head after = Some c → c = 0x0A%N) ∧
    v = Py.strip g.

(** The fields that are a label and the rest of its line. *)
Definition labelled_fields : list (string * string) :=
  [ ("Date_Time", "Ticket Date/Time:"); ("Applicant", "Applicant:");
    ("Disaster", "Disaster:"); ("Program", "Program:");
    ("Contractor", "Contractor:"); ("Sub-Contractor", "Sub-Contractor:");
    ("Crew", "Crew:"); ("Supervisor", "Supervisor:");
    ("Hazard_Type", "Hazard Type:"); ("GPS", "GPS(Lat,Lgn):");
    ("Address", "Address:"); ("Monitor", "Monitor:") ].

(** * Properties *)

(** ** [str.strip] *)
Section StripFacts.
Import Py.

Lemma lstrip_spec s :
  ∃ pre, s = pre ++ lstrip s ∧ Forall (λ c, isspace c = true) pre.
Proof.
  induction s as [|c s IH]; simpl.
  - by exists [].
  - destruct (isspace c) eqn:Hc.
    + destruct IH as (pre & Hs & Hpre). exists (c :: pre). split.
      * simpl. by f_equal.
      * by constructor.
    + by exists [].
Qed.

Lemma lstrip_head s c : head (lstrip s) = Some c → isspace c = false.
Proof.
  induction s as [|d s IH]; simpl; [done|].
  destruct (isspace d) eqn:Hd; [done|].
  simpl. intros [= <-]. done.
Qed.

Lemma lstrip_id s :
  (∀ c, head s = Some c → isspace c = false) → lstrip s = s.
Proof.
  destruct s as [|c s]; simpl; [done|].
  intros Hc. by rewrite (Hc c eq_refl).
Qed.

Lemma rstrip_spec s :
  ∃ post, s = rstrip s ++ post ∧ Forall (λ c, isspace c = true) post.
Proof.
  unfold rstrip. destruct (lstrip_spec (reverse s)) as (pre & Hs & Hpre).
  exists (reverse pre). split.
  - rewrite <- reverse_app, <- Hs. by rewrite reverse_involutive.
  - by apply Forall_reverse.
Qed.

Lemma rstrip_last s c : last (rstrip s) = Some c → isspace c = false.
Proof.
  unfold rstrip. rewrite last_reverse. apply lstrip_head.
Qed.

Lemma rstrip_id s :
  (∀ c, last s = Some c → isspace c = false) → rstrip s = s.
Proof.
  intros Hc. unfold rstrip. rewrite lstrip_id.
  - apply reverse_involutive.
  - intros c. rewrite head_reverse. apply Hc.
Qed.

(** What [strip] returns has no whitespace at either end. *)
Lemma strip_trimmed s : trimmed (strip s).
Proof.
  unfold strip. split; intros c.
  - destruct (rstrip_spec (lstrip s)) as (post & Hs & _).
    destruct (rstrip (lstrip s)) as [|d t] eqn:Hr; [done|].
    simpl. intros [= ->]. apply (lstrip_head s). by rewrite Hs.
  - apply rstrip_last.
Qed.

(** [strip] leaves such a string as it is. *)
Lemma strip_id s : trimmed s → strip s = s.
Proof.
  intros [Hh Hl]. unfold strip. rewrite (lstrip_id s Hh). by apply rstrip_id.
Qed.

Lemma Forall_trimmed s : Forall (λ c, isspace c = false) s → trimmed s.
Proof.
  rewrite Forall_forall. intros Hs. split; intros c Hc; apply Hs.
  - by apply head_Some_elem_of.
  - by apply last_Some_elem_of.
Qed.

End StripFacts.

(** ** The matcher *)
Section MatcherFacts.
Import Py.
Context `{UnicodeData} (ic : bool).

Lemma backoff_sound {A} lo n (k : nat → option A) res :
  backoff lo n k = Some res → ∃ m, lo ≤ m ≤ n ∧ k m = Some res.
Proof.
  induction n as [|n IH]; simpl.
  - destruct (Nat.ltb_spec 0 lo); [done|].
    destruct (k 0) eqn:Hk; [|done]. intros [= ->]. exists 0. split; [lia|done].
  - destruct (Nat.ltb_spec (S n) lo); [done|].
    destruct (k (S n)) eqn:Hk.
    + intros [= ->]. exists (S n). split; [lia|done].
    + intros Hb. destruct (IH Hb) as (m & Hm & Hkm). exists m. split; [lia|done].
Qed.

Lemma run_length_take p s m :
  m ≤ run_length p s →
  Forall (λ c, p c = true) (take m s) ∧ length (take m s) = m.
Proof.
  revert m. induction s as [|c s IH]; intros m; simpl.
  - intros Hm. assert (m = 0) as -> by lia. by split.
  - destruct m as [|m]; [by split|]. simpl.
    destruct (p c) eqn:Hc; [|lia]. intros Hm.
    destruct (IH m) as [Hall Hlen]; [lia|]. split; [by constructor|by f_equal].
Qed.

Lemma greedy_bounds p hi s :
  greedy p hi s ≤ run_length p s ∧ (∀ h, hi = Some h → greedy p hi s ≤ h).
Proof.
  unfold greedy. destruct hi as [h|]; split; try lia; intros h' [= <-]; lia.
Qed.

(** A match takes a prefix of the text. *)
Lemma matches_suffix r s g s' g' :
  matches ic r s g s' g' → ∃ w, s = w ++ s'.
Proof.
  induction 1 as [s g|cs c s g Hc|r1 r2 s g s1 g1 s2 g2 _ [w1 ->] _ [w2 ->]
                 |lo hi cs w s g|i r w s g g' _ _].
  - by exists [].
  - by exists [c].
  - exists (w1 ++ w2). by rewrite <- app_assoc.
  - by exists w.
  - by exists w.
Qed.

(** Whatever the engine finds is a match, and the continuation ran on
    what the match left. *)
Lemma match_at_sound {A} r :
  ∀ s g (k : pystr → gmap nat pystr → option A) res,
    match_at ic r s g k = Some res →
    ∃ s' g', matches ic r s g s' g' ∧ k s' g' = Some res.
Proof.
  induction r as [|cs|r1 IH1 r2 IH2|lo hi cs|i r IH]; intros s g k res; simpl.
  - intros Hk. exists s, g. split; [constructor|done].
  - destruct s as [|c s]; [done|]. destruct (cs_match ic cs c) eqn:Hc; [|done].
    intros Hk. exists s, g. split; [by constructor|done].
  - intros Hm. destruct (IH1 _ _ _ _ Hm) as (s1 & g1 & Hm1 & Hm').
    destruct (IH2 _ _ _ _ Hm') as (s2 & g2 & Hm2 & Hk).
    exists s2, g2. split; [by econstructor|done].
  - intros Hb. destruct (backoff_sound _ _ _ _ Hb) as (m & [Hlo Hhi] & Hk).
    destruct (greedy_bounds (cs_match ic cs) hi s) as [Hrun Hmax].
    destruct (run_length_take (cs_match ic cs) s m) as [Hall Hlen]; [lia|].
    exists (drop m s), g. split; [|done].
    rewrite <- (take_drop m s) at 1. constructor; [done|lia|].
    intros h Hh. specialize (Hmax h Hh). lia.
  - intros Hm. destruct (IH _ _ _ _ Hm) as (s' & g' & Hm' & Hk).
    destruct (matches_suffix _ _ _ _ _ Hm') as [w ->].
    rewrite length_app, Nat.add_sub, take_app_length in Hk.
    exists s', (<[i := w]> g'). split; [by constructor|done].
Qed.

Lemma search_from_sound r pos s m :
  search_from ic r pos s = Some m →
  ∃ pre rest s', s = pre ++ rest ∧ matches ic r rest ∅ s' (m_groups m).
Proof.
  revert pos. induction s as [|c s IH]; intros pos; simpl.
  - destruct (match_at ic r [] ∅ _) as [[s' g]|] eqn:Hm; [|done].
    intros [= <-]. apply match_at_sound in Hm as (s1 & g1 & Hm & [= <- <-]).
    by exists [], [], s1.
  - destruct (match_at ic r (c :: s) ∅ _) as [[s' g]|] eqn:Hm.
    + intros [= <-]. apply match_at_sound in Hm as (s1 & g1 & Hm & [= <- <-]).
      by exists [], (c :: s), s1.
    + intros Hs. destruct (IH _ Hs) as (pre & rest & s' & -> & Hm').
      by exists (c :: pre), rest, s'.
Qed.

(** The engine misses nothing: where there is a match the continuation
    accepts, it finds one. *)
Lemma backoff_complete {A} lo n m (k : nat → option A) :
  lo ≤ m ≤ n → is_Some (k m) → is_Some (backoff lo n k).
Proof.
  intros [Hlo Hn] Hk. induction n as [|n IH]; simpl.
  - assert (m = 0) as -> by lia.
    destruct (Nat.ltb_spec 0 lo); [lia|]. by destruct (k 0).
  - destruct (Nat.ltb_spec (S n) lo); [lia|].
    destruct (k (S n)) eqn:Hkn; [done|].
    destruct (decide (m = S n)) as [->|Hne].
    + rewrite Hkn in Hk. by destruct Hk.
    + apply IH. lia.
Qed.

Lemma run_length_app p w s :
  Forall (λ c, p c = true) w → length w ≤ run_length p (w ++ s).
Proof.
  induction 1 as [|c w Hc _ IH]; simpl; [lia|]. rewrite Hc. lia.
Qed.

Lemma match_at_complete r s g s' g' :
  matches ic r s g s' g' →
  ∀ A (k : pystr → gmap nat pystr → option A),
    is_Some (k s' g') → is_Some (match_at ic r s g k).
Proof.
  induction 1 as [s g|cs c s g Hc|r1 r2 s g s1 g1 s2 g2 _ IH1 _ IH2
                 |lo hi cs w s g Hall Hlo Hhi|i r w s g g' _ IH];
    intros A k Hk; simpl.
  - done.
  - by rewrite Hc.
  - apply IH1, IH2, Hk.
  - apply backoff_complete with (length w).
    + split; [done|]. unfold greedy.
      pose proof (run_length_app (cs_match ic cs) w s Hall).
      destruct hi as [h|]; [|done]. specialize (Hhi h eq_refl). lia.
    + by rewrite drop_app_length.
  - apply IH. by rewrite length_app, Nat.add_sub, take_app_length.
Qed.

(** [re.search] gives [None] only for a text no position of which has a
    match, and a match only where no earlier position has one. *)
Lemma search_from_none r pos s :
  search_from ic r pos s = None →
  ∀ pre rest s' g', s = pre ++ rest → ¬ matches ic r rest ∅ s' g'.
Proof.
  revert pos. induction s as [|c s IH]; intros pos Hs pre rest s' g' Heq Hm.
  - symmetry in Heq. apply app_eq_nil in Heq as [-> ->].
    simpl in Hs.
    destruct (match_at_complete _ _ _ _ _ Hm _ (λ s' g, Some (s', g)))
      as [[s1 g1] Hfound]; [done|].
    by rewrite Hfound in Hs.
  - simpl in Hs.
    destruct (match_at ic r (c :: s) ∅ _) as [[s1 g1]|] eqn:Hhere; [done|].
    destruct pre as [|d pre]; simpl in Heq.
    + subst rest.
      destruct (match_at_complete _ _ _ _ _ Hm _ (λ s' g, Some (s', g)))
        as [[s2 g2] Hfound]; [done|].
      by rewrite Hfound in Hhere.
    + injection Heq as _ ->. by eapply IH.
Qed.

Lemma search_from_leftmost r pos s m :
  search_from ic r pos s = Some m →
  ∃ pre rest s',
    s = pre ++ rest ∧ m_start m = pos + length pre ∧
    matches ic r rest ∅ s' (m_groups m) ∧
    ∀ pre' rest' s'' g'',
      s = pre' ++ rest' → length pre' < length pre →
      ¬ matches ic r rest' ∅ s'' g''.
Proof.
  revert pos. induction s as [|c s IH]; intros pos; simpl.
  - destruct (match_at ic r [] ∅ _) as [[s' g]|] eqn:Hm; [|done].
    intros [= <-]. apply match_at_sound in Hm as (s1 & g1 & Hm & [= <- <-]).
    exists [], [], s1. simpl. split_and!; [done|lia|done|]. intros; lia.
  - destruct (match_at ic r (c :: s) ∅ _) as [[s' g]|] eqn:Hm.
    + intros [= <-]. apply match_at_sound in Hm as (s1 & g1 & Hm & [= <- <-]).
      exists [], (c :: s), s1. simpl. split_and!; [done|lia|done|]. intros; lia.
    + intros Hs. destruct (IH _ Hs) as (pre & rest & s' & -> & Hstart & Hm' & Hleft).
      exists (c :: pre), rest, s'. simpl. split_and!; [done|lia|done|].
      intros pre' rest' s'' g'' Heq Hlen Hm''.
      destruct pre' as [|d pre']; simpl in Heq.
      * subst rest'.
        destruct (match_at_complete _ _ _ _ _ Hm'' _ (λ s' g, Some (s', g)))
          as [[s2 g2] Hfound]; [done|].
        by rewrite Hfound in Hm.
      * injection Heq as _ Heq. simpl in Hlen.
        eapply Hleft; [done| |done]. lia.
Qed.

(** A group on every path of the pattern is set by every match. *)
Lemma matches_captures i r s g s' g' :
  matches ic r s g s' g' →
  captures i r = true ∨ is_Some (g !! i) → is_Some (g' !! i).
Proof.
  induction 1 as [s g|cs c s g Hc|r1 r2 s g s1 g1 s2 g2 _ IH1 _ IH2
                 |lo hi cs w s g|j r w s g g' _ IH]; simpl.
  - by intros [?|?].
  - by intros [?|?].
  - intros [Hc|Hg].
    + apply orb_true_iff in Hc as [Hc|Hc]; [|by apply IH2; left].
      apply IH2. right. apply IH1. by left.
    + apply IH2. right. apply IH1. by right.
  - by intros [?|?].
  - intros Hc. destruct (decide (i = j)) as [->|Hne].
    + rewrite lookup_insert_eq. by eexists.
    + rewrite lookup_insert_ne by done. apply IH.
      destruct Hc as [Hc|Hg]; [|by right]. left.
      apply orb_true_iff in Hc as [Hc|Hc]; [|done].
      by apply bool_decide_eq_true in Hc.
Qed.

Lemma re_search_group i pattern text m :
  captures i pattern = true →
  re_search pattern text ic = Some m → is_Some (group m i).
Proof.
  intros Hc Hs. apply search_from_sound in Hs as (pre & rest & s' & _ & Hm).
  unfold group. eapply matches_captures; [done|by left].
Qed.

(** What the pieces of a pattern took, read back from a match. *)
Lemma matches_cat_inv r1 r2 s g s2 g2 :
  matches ic (Cat r1 r2) s g s2 g2 →
  ∃ s1 g1, matches ic r1 s g s1 g1 ∧ matches ic r2 s1 g1 s2 g2.
Proof. inversion 1; subst. eauto. Qed.

Lemma matches_empty_inv s g s' g' :
  matches ic Empty s g s' g' → s' = s ∧ g' = g.
Proof. by inversion 1. Qed.

Lemma matches_group_repeat_inv i lo hi cs s g s' g' :
  matches ic (Group i (Repeat lo hi cs)) s g s' g' →
  ∃ w, g' !! i = Some w ∧ lo ≤ length w ∧
       Forall (λ c, cs_match ic cs c = true) w.
Proof.
  inversion 1 as [| | | |j r w s0 g0 g1 Hr]; subst.
  inversion Hr as [| | |lo' hi' cs' w' s1 g2 Hall Hlo Hhi Heq|]; subst.
  match goal with Heq : _ ++ _ = _ ++ _ |- _ => apply app_inv_tail in Heq as -> end.
  exists w. by rewrite lookup_insert_eq.
Qed.

End MatcherFacts.

(** ** [parse_fields] *)

Section ParseFacts.
Import Py.
Context `{UnicodeData}.

Lemma re_search_sound pattern text ic m :
  re_search pattern text ic = Some m →
  ∃ pre rest s', text = pre ++ rest ∧ matches ic pattern rest ∅ s' (m_groups m).
Proof. apply search_from_sound. Qed.

(** [re.search] finds no match exactly when the pattern matches at no
    position of the text. *)
Lemma re_search_none_iff pattern text ic :
  re_search pattern text ic = None ↔
  ∀ pre rest s' g', text = pre ++ rest → ¬ matches ic pattern rest ∅ s' g'.
Proof.
  split; [apply search_from_none|].
  intros Hnone. destruct (re_search pattern text ic) as [m|] eqn:Hs; [|done].
  apply re_search_sound in Hs as (pre & rest & s' & Heq & Hm).
  by destruct (Hnone pre rest s' (m_groups m) Heq).
Qed.

(** The match [re.search] returns starts at the first position that
    has one. *)
Lemma re_search_leftmost pattern text ic m :
  re_search pattern text ic = Some m →
  ∃ pre rest s',
    text = pre ++ rest ∧ m_start m = length pre ∧
    matches ic pattern rest ∅ s' (m_groups m) ∧
    ∀ pre' rest' s'' g'',
      text = pre' ++ rest' → length pre' < length pre →
      ¬ matches ic pattern rest' ∅ s'' g''.
Proof.
  intros Hs. apply search_from_leftmost in Hs
    as (pre & rest & s' & Heq & Hstart & Hm & Hleft).
  by exists pre, rest, s'.
Qed.

(** The loop over a table whose patterns all set group 1 and whose
    field names differ: it does not raise, adds exactly the fields of
    the table and gives each the value its pattern extracts. *)
Lemma parse_loop_spec text items :
  Forall (λ fp, captures 1 fp.2 = true) items →
  NoDup items.*1 →
  ∀ r0 : row, ∃ r : row,
    parse_loop items text r0 = Ok r ∧
    dom r = dom r0 ∪ list_to_set items.*1 ∧
    (∀ f, f ∉ items.*1 → r !! f = r0 !! f) ∧
    Forall (extracted text r) items.
Proof.
  induction items as [|[field pattern] items IH]; intros Hcap Hnd r0.
  - exists r0. simpl. split_and!; [done| |done|constructor].
    by rewrite (right_id_L ∅ (∪)).
  - apply Forall_cons in Hcap as [Hc Hcap]. simpl in Hc.
    rewrite fmap_cons in Hnd. apply NoDup_cons in Hnd as [Hnot Hnd].
    simpl in Hnot. specialize (IH Hcap Hnd).
    assert (∃ v, parse_loop ((field, pattern) :: items) text r0
                 = parse_loop items text (<[field := v]> r0) ∧
                 ∀ r : row, r !! field = Some v →
                            extracted text r (field, pattern))
      as (v & -> & Hv).
    { simpl. unfold extracted. simpl.
      destruct (re_search pattern text true) as [m|] eqn:Hs.
      - destruct (re_search_group true 1 pattern text m Hc Hs) as [g Hg].
        rewrite Hg. exists (strip g). split; [done|]. intros r Hr. by exists g.
      - by exists (str "N/A"). }
    destruct (IH (<[field := v]> r0)) as (r & Hr & Hdom & Hkeep & Hall).
    exists r. split_and!.
    + done.
    + rewrite Hdom, dom_insert_L, fmap_cons, list_to_set_cons. simpl.
      by rewrite (assoc_L (∪)), (comm_L (∪) (dom r0)).
    + intros f Hf. apply not_elem_of_cons in Hf as [Hne Hf].
      rewrite (Hkeep f Hf). by rewrite lookup_insert_ne.
    + constructor; [|done]. apply Hv.
      rewrite (Hkeep field Hnot). by rewrite lookup_insert_eq.
Qed.

(** The loop keeps every value either ["N/A"] or stripped. *)
Lemma parse_loop_trimmed text items :
  ∀ r0 r : row,
    parse_loop items text r0 = Ok r →
    map_Forall (λ _ v, na_or_trimmed v) r0 →
    map_Forall (λ _ v, na_or_trimmed v) r.
Proof.
  induction items as [|[field pattern] items IH]; intros r0 r; simpl.
  - by intros [= <-].
  - destruct (re_search pattern text true) as [m|].
    + destruct (group m 1) as [g|]; [|done].
      intros Hr Hr0. apply (IH _ _ Hr).
      apply map_Forall_insert_2; [|done]. right. apply strip_trimmed.
    + intros Hr Hr0. apply (IH _ _ Hr).
      apply map_Forall_insert_2; [|done]. by left.
Qed.

End ParseFacts.

Lemma app_patterns_capture :
  Forall (λ fp, Py.captures 1 fp.2 = true) ticket_app.patterns.
Proof. repeat constructor. Qed.

Lemma app_patterns_names : ticket_app.patterns.*1 = field_names.
Proof. reflexivity. Qed.

Lemma sorter_patterns_capture :
  Forall (λ fp, Py.captures 1 fp.2 = true) ticket_sorter.patterns.
Proof. repeat constructor. Qed.

Lemma sorter_patterns_names : ticket_sorter.patterns.*1 = field_names.
Proof. reflexivity. Qed.

Lemma field_names_NoDup : NoDup field_names.
Proof. apply (bool_decide_unpack _). by vm_compute. Qed.

Section ParseFieldsClaims.
Import Py.
Context `{UnicodeData}.

Lemma app_parse_fields_spec text :
  ∃ r : row,
    ticket_app.parse_fields text = Ok r ∧
    dom r = list_to_set field_names ∧
    Forall (extracted text r) ticket_app.patterns.
Proof.
  destruct (parse_loop_spec text ticket_app.patterns app_patterns_capture)
    with (r0 := (∅ : row)) as (r & Hr & Hdom & _ & Hall).
  { rewrite app_patterns_names. apply field_names_NoDup. }
  exists r. split_and!; [done| |done].
  rewrite Hdom, dom_empty_L, app_patterns_names. by rewrite (left_id_L ∅ (∪)).
Qed.

Lemma sorter_parse_fields_spec text :
  ∃ r : row,
    ticket_sorter.parse_fields text = Ok r ∧
    dom r = list_to_set field_names ∧
    Forall (extracted text r) ticket_sorter.patterns.
Proof.
  destruct (parse_loop_spec text ticket_sorter.patterns sorter_patterns_capture)
    with (r0 := (∅ : row)) as (r & Hr & Hdom & _ & Hall).
  { rewrite sorter_patterns_names. apply field_names_NoDup. }
  exists r. split_and!; [done| |done].
  rewrite Hdom, dom_empty_L, sorter_patterns_names. by rewrite (left_id_L ∅ (∪)).
Qed.

(** C6.  The two files extract the same: for every text,
    [parse_fields] of [ticket_app.py] and of [ticket_sorter.py] return
    equal rows. *)
Theorem parse_fields_same_in_both_files (text : pystr) :
  ticket_app.parse_fields text = ticket_sorter.parse_fields text.
Proof.
  unfold ticket_app.parse_fields, ticket_sorter.parse_fields.
  assert (ticket_app.patterns = ticket_sorter.patterns) as -> by reflexivity.
  reflexivity.
Qed.

(** C1, as amended.  For every text, [parse_fields] (of either file)
    returns a row; its keys are exactly the fifteen field names; and
    each field holds the first capture group of the leftmost match of
    its pattern in the text with the whitespace at both ends stripped,
    or ["N/A"] when the pattern matches nowhere. *)
Theorem parse_fields_row (text : pystr) :
  (∃ r : row,
     ticket_app.parse_fields text = Ok r ∧
     dom r = list_to_set field_names ∧
     Forall (extracted text r) ticket_app.patterns) ∧
  (∃ r : row,
     ticket_sorter.parse_fields text = Ok r ∧
     dom r = list_to_set field_names ∧
     Forall (extracted text r) ticket_sorter.patterns).
Proof. split; [apply app_parse_fields_spec|apply sorter_parse_fields_spec]. Qed.

(** C8.  For every text, every value of the row [parse_fields] returns
    is ["N/A"] or a string with no whitespace at either end. *)
Theorem parse_fields_values_trimmed (text : pystr) :
  (∃ r : row, ticket_app.parse_fields text = Ok r ∧
              map_Forall (λ _ v, v = str "N/A" ∨ trimmed v) r) ∧
  (∃ r : row, ticket_sorter.parse_fields text = Ok r ∧
              map_Forall (λ _ v, v = str "N/A" ∨ trimmed v) r).
Proof.
  split.
  - destruct (app_parse_fields_spec text) as (r & Hr & _). exists r.
    split; [done|]. apply (parse_loop_trimmed _ _ _ _ Hr), map_Forall_empty.
  - destruct (sorter_parse_fields_spec text) as (r & Hr & _). exists r.
    split; [done|]. apply (parse_loop_trimmed _ _ _ _ Hr), map_Forall_empty.
Qed.

End ParseFieldsClaims.

(** C1 as it was stated fails: in the text ["Crew: A7  "] the first
    group of the Crew pattern is ["A7  "], with its two trailing
    blanks, while the row holds ["A7"]. *)
Lemma crew_value_is_not_the_group :
  ticket_app.patterns !! 7
    = Some ("Crew", Py.seq_of [Py.lit "Crew:"; Py.star Py.Space;
                               Py.Group 1 (Py.star Py.Any)]) ∧
  (@Py.re_search ascii_tables
     (Py.seq_of [Py.lit "Crew:"; Py.star Py.Space; Py.Group 1 (Py.star Py.Any)])
     (Py.str "Crew: A7  ") true ≫= λ m, Py.group m 1)
    = Some (Py.str "A7  ") ∧
  match @ticket_app.parse_fields ascii_tables (Py.str "Crew: A7  ") with
  | Py.Ok r => r !! "Crew"
  | Py.Raise _ => None
  end = Some (Py.str "A7") ∧
  match @ticket_sorter.parse_fields ascii_tables (Py.str "Crew: A7  ") with
  | Py.Ok r => r !! "Crew"
  | Py.Raise _ => None
  end = Some (Py.str "A7").
Proof. split_and!; by vm_compute. Qed.

(** ** The numeric fields *)
Section NumericFields.
Import Py.
Context `{UnicodeData}.

(** A pattern [label\s*(x{lo,hi})]: what group 1 holds after a match. *)
Lemma labelled_group_inv ic label lo hi cs text m :
  re_search (seq_of [lit label; star Space; Group 1 (Repeat lo hi cs)]) text ic
    = Some m →
  ∃ w, group m 1 = Some w ∧ lo ≤ length w ∧
       Forall (λ c, cs_match ic cs c = true) w.
Proof.
  intros Hs. apply re_search_sound in Hs as (pre & rest & s' & _ & Hm).
  change (seq_of [lit label; star Space; Group 1 (Repeat lo hi cs)])
    with (Cat (lit label) (Cat (star Space) (Cat (Group 1 (Repeat lo hi cs)) Empty)))
    in Hm.
  apply matches_cat_inv in Hm as (s1 & g1 & _ & Hm).
  apply matches_cat_inv in Hm as (s2 & g2 & _ & Hm).
  apply matches_cat_inv in Hm as (s3 & g3 & Hg & He).
  apply matches_empty_inv in He as [_ <-].
  by apply matches_group_repeat_inv in Hg.
Qed.

Lemma period_not_space : isspace 0x2E = false.
Proof. reflexivity. Qed.

(** A period is not cased: it matches itself only, whatever the flag. *)
Lemma lit_match_period ic c : lit_match ic 0x2E c = true → c = 0x2E%N.
Proof.
  unfold lit_match. replace (ic && ascii_letter 0x2E) with false
    by (by destruct ic).
  intros Hc. symmetry. by apply N.eqb_eq.
Qed.

Lemma unit_count_shape text (r : row) :
  (∀ c, isdecimal c = true → isspace c = false) →
  extracted text r
    ("Unit_Count", seq_of [lit "Unit Count:"; star Space; Group 1 (plus Digit)]) →
  ∃ v, r !! "Unit_Count" = Some v ∧
       (v = str "N/A" ∨ v ≠ [] ∧ Forall (λ c, isdecimal c = true) v).
Proof.
  intros Hdigit. unfold extracted. simpl.
  destruct (re_search _ text true) as [m|] eqn:Hs; [|by eexists; eauto].
  intros (g & Hg & Hr).
  apply labelled_group_inv in Hs as (w & Hw & Hlen & Hall).
  rewrite Hg in Hw. injection Hw as ->. simpl in Hall.
  exists w. rewrite Hr, strip_id.
  - split; [done|]. right. split; [|done]. intros ->. simpl in Hlen. lia.
  - apply Forall_trimmed. eapply Forall_impl; [done|]. apply Hdigit.
Qed.

Lemma measure_shape text (r : row) :
  (∀ c, isdecimal c = true → isspace c = false) →
  extracted text r
    ("Measure", seq_of [lit "Measure:"; star Space;
                        Group 1 (plus (Alt Digit (Lit 0x2E)))]) →
  ∃ v, r !! "Measure" = Some v ∧
       (v = str "N/A" ∨
        v ≠ [] ∧ Forall (λ c, isdecimal c = true ∨ c = 0x2E%N) v).
Proof.
  intros Hdigit. unfold extracted. simpl.
  destruct (re_search _ text true) as [m|] eqn:Hs; [|by eexists; eauto].
  intros (g & Hg & Hr).
  apply labelled_group_inv in Hs as (w & Hw & Hlen & Hall).
  rewrite Hg in Hw. injection Hw as ->.
  assert (Forall (λ c, isdecimal c = true ∨ c = 0x2E%N) w) as Hall'.
  { eapply Forall_impl; [done|]. intros c Hc. cbn [cs_match] in Hc.
    apply orb_true_iff in Hc as [Hc|Hc]; [by left|right].
    by apply lit_match_period in Hc. }
  exists w. rewrite Hr, strip_id.
  - split; [done|]. right. split; [|done]. intros ->. simpl in Hlen. lia.
  - apply Forall_trimmed. eapply Forall_impl; [done|].
    intros c [Hc| ->]; [by apply Hdigit|apply period_not_space].
Qed.

(** C10.  In every row [parse_fields] returns, the value of
    ["Unit_Count"] is ["N/A"] or a string of one or more decimal digits
    (the characters [\d] matches), and the value of ["Measure"] is
    ["N/A"] or a string of one or more decimal digits and periods.
    No decimal digit of Unicode is a whitespace character. *)
Theorem numeric_fields_shape (text : pystr) :
  (∀ c, isdecimal c = true → isspace c = false) →
  (∃ r : row, ticket_app.parse_fields text = Ok r ∧
     (∃ v, r !! "Unit_Count" = Some v ∧
           (v = str "N/A" ∨ v ≠ [] ∧ Forall (λ c, isdecimal c = true) v)) ∧
     (∃ v, r !! "Measure" = Some v ∧
           (v = str "N/A" ∨
            v ≠ [] ∧ Forall (λ c, isdecimal c = true ∨ c = 0x2E%N) v))) ∧
  (∃ r : row, ticket_sorter.parse_fields text = Ok r ∧
     (∃ v, r !! "Unit_Count" = Some v ∧
           (v = str "N/A" ∨ v ≠ [] ∧ Forall (λ c, isdecimal c = true) v)) ∧
     (∃ v, r !! "Measure" = Some v ∧
           (v = str "N/A" ∨
            v ≠ [] ∧ Forall (λ c, isdecimal c = true ∨ c = 0x2E%N) v))).
Proof.
  intros Hdigit. split.
  - destruct (app_parse_fields_spec text) as (r & Hr & _ & Hall).
    exists r. split_and!; [done| |].
    + apply unit_count_shape with text; [done|].
      by apply (Forall_lookup_1 _ _ 13 _ Hall).
    + apply measure_shape with text; [done|].
      by apply (Forall_lookup_1 _ _ 12 _ Hall).
  - destruct (sorter_parse_fields_spec text) as (r & Hr & _ & Hall).
    exists r. split_and!; [done| |].
    + apply unit_count_shape with text; [done|].
      by apply (Forall_lookup_1 _ _ 13 _ Hall).
    + apply measure_shape with text; [done|].
      by apply (Forall_lookup_1 _ _ 12 _ Hall).
Qed.

End NumericFields.

Lemma ascii_digits_not_space c :
  @Py.isdecimal ascii_tables c = true → Py.isspace c = false.
Proof.
  simpl. intros Hc. apply andb_true_iff in Hc as [Hlo Hhi].
  apply N.leb_le in Hlo, Hhi. unfold Py.isspace.
  repeat match goal with
         | |- context [(?a <=? ?b)%N] => destruct (N.leb_spec a b); try lia
         | |- context [(?a =? ?b)%N] => destruct (N.eqb_spec a b); try lia
         end.
Qed.

Lemma numeric_fields_shape_witness :
  (∃ r : row,
     @ticket_app.parse_fields ascii_tables (Py.str "Unit Count: 3") = Py.Ok r ∧
     (∃ v, r !! "Unit_Count" = Some v ∧
           (v = Py.str "N/A" ∨
            v ≠ [] ∧ Forall (λ c, @Py.isdecimal ascii_tables c = true) v)) ∧
     (∃ v, r !! "Measure" = Some v ∧
           (v = Py.str "N/A" ∨
            v ≠ [] ∧
            Forall (λ c, @Py.isdecimal ascii_tables c = true ∨ c = 0x2E%N) v))) ∧
  (∃ r : row,
     @ticket_sorter.parse_fields ascii_tables (Py.str "Unit Count: 3") = Py.Ok r ∧
     (∃ v, r !! "Unit_Count" = Some v ∧
           (v = Py.str "N/A" ∨
            v ≠ [] ∧ Forall (λ c, @Py.isdecimal ascii_tables c = true) v)) ∧
     (∃ v, r !! "Measure" = Some v ∧
           (v = Py.str "N/A" ∨
            v ≠ [] ∧
            Forall (λ c, @Py.isdecimal ascii_tables c = true ∨ c = 0x2E%N) v))).
Proof.
  exact (@numeric_fields_shape ascii_tables (Py.str "Unit Count: 3")
           ascii_digits_not_space).
Defined.

(** ** [ProcessingWorker.run] *)
Section WorkerFacts.
Import Py Worker.
Context `{UnicodeData} `{Engines}.
Variable process_file : pystr → io (list row).

(** The whole run: file after file, then [finished] with the rows of
    the files that returned; [run] itself never raises. *)
Lemma worker_run_trace file_paths :
  worker_run process_file file_paths
  = (files_events process_file (length file_paths) 1 file_paths
       ++ [Finished (file_paths ≫= returned_rows process_file)],
     Ok ()).
Proof.
  unfold worker_run, enumerate.
  match goal with |- context [for_each _ _ ?b] => set (body := b) end.
  assert (∀ i path acc,
            body (i, path) acc
            = (file_events process_file (length file_paths) (S i) path,
               Ok (acc ++ returned_rows process_file path))) as Hbody.
  { intros i path acc. unfold body, file_events, returned_rows.
    replace (i + 1) with (S i) by lia.
    unfold mbind, io_bind, bind, emit, try_except, mret, io_ret, ret.
    destruct (process_file path) as [t [rows|e]]; simpl;
      by rewrite ?app_nil_r, <- ?app_assoc. }
  clearbody body.
  assert (∀ paths k acc,
            for_each (zip (seq k (length paths)) paths) acc body
            = (files_events process_file (length file_paths) (S k) paths,
               Ok (acc ++ paths ≫= returned_rows process_file))) as Hloop.
  { induction paths as [|path paths IH]; intros k acc; simpl.
    - unfold ret. by rewrite app_nil_r.
    - rewrite Hbody. unfold bind at 1. rewrite IH. by rewrite <- app_assoc. }
  unfold mbind, io_bind. unfold bind at 1. by rewrite Hloop.
Qed.

Lemma progress_values_app (t1 t2 : list event) :
  progress_values (t1 ++ t2) = progress_values t1 ++ progress_values t2.
Proof. apply omap_app. Qed.

Lemma progress_values_calls (t : list event) :
  Forall (λ e, is_call e = true) t → progress_values t = [].
Proof.
  induction 1 as [|e t He _ IH]; [done|].
  unfold progress_values in *. simpl. by destruct e.
Qed.

(** When [process_file] emits nothing but calls to the engines, the
    progress values of a run are those of [prog_val], one per file. *)
Lemma files_events_progress n paths :
  (∀ path, Forall (λ e, is_call e = true) (process_file path).1) →
  ∀ k, progress_values (files_events process_file n k paths)
       = (λ j, prog_val j n) <$> seq k (length paths).
Proof.
  intros Hcalls. induction paths as [|path paths IH]; intros k;
    cbn [files_events length seq fmap list_fmap]; [done|].
  rewrite progress_values_app, IH. f_equal.
  unfold file_events. rewrite !progress_values_app.
  rewrite (progress_values_calls _ (Hcalls path)).
  by destruct (process_file path).2.
Qed.

Lemma files_events_app n k pre post :
  files_events process_file n k (pre ++ post)
  = files_events process_file n k pre
    ++ files_events process_file n (k + length pre) post.
Proof.
  revert k. induction pre as [|path pre IH]; intros k;
    cbn [files_events app length].
  - by rewrite Nat.add_0_r.
  - by rewrite IH, <- app_assoc, Nat.add_succ_r.
Qed.

End WorkerFacts.

(** ** The trace monad *)
Section MonadFacts.
Import Py Worker.
Context `{Engines}.

Lemma exc_bind_Ok {A B} (a : A) (f : A → exc B) : (Ok a ≫= f) = f a.
Proof. reflexivity. Qed.

Lemma bind_ret_l {A B} (a : A) (f : A → io B) : (mret a ≫= f) = f a.
Proof.
  unfold mbind, io_bind, bind, mret, io_ret, ret. by destruct (f a).
Qed.

Lemma bind_assoc {A B C} (m : io A) (f : A → io B) (g : B → io C) :
  (m ≫= f) ≫= g = m ≫= (λ x, f x ≫= g).
Proof.
  unfold mbind, io_bind, bind. destruct m as [t [a|e]]; [|done].
  destruct (f a) as [t' [b|e]]; [|done].
  destruct (g b) as [t'' r]. by rewrite app_assoc.
Qed.

Lemma bind_call {A B} (ev : event) (res : exc A) (f : A → io B) :
  (call ev res ≫= f)
  = match res with
    | Ok a => (ev :: (f a).1, (f a).2)
    | Raise e => ([ev], Raise e)
    end.
Proof.
  unfold mbind, io_bind, bind, call. destruct res as [a|e]; [|done].
  by destruct (f a).
Qed.

End MonadFacts.

(** ** [TicketLogic.process_file] *)
Section ProcessFacts.
Import Py Worker.
Context `{UnicodeData} `{Engines}.

(** The loop over the images, for a [parse_fields] that never raises:
    the recogniser runs on the images in turn until it raises, and a
    row is added for each text it gave. *)
Lemma ocr_loop_spec (parse_fields : pystr → exc row) :
  (∀ text, ∃ r, parse_fields text = Ok r) →
  ∀ imgs acc,
    for_each imgs acc (λ img extracted_data,
      text_block ← call (Recognize img) (image_to_string img);
      fields ← lift (parse_fields text_block);
      mret (extracted_data ++ [fields]))
    = (Recognize <$> attempted imgs,
       match texts ← mapM image_to_string imgs; mapM parse_fields texts with
       | Ok rows => Ok (acc ++ rows)
       | Raise e => Raise e
       end).
Proof.
  intros Htotal. induction imgs as [|img imgs IH]; intros acc.
  - simpl. unfold ret. by rewrite app_nil_r.
  - cbn [for_each attempted mapM].
    unfold mbind at 1 2 3, io_bind, bind at 1 2 3, call, lift, mret, io_ret, ret.
    unfold mbind at 1 2, exc_mbind, exc_bind at 1 2.
    destruct (image_to_string img) as [text|e]; [|done].
    destruct (Htotal text) as [r Hr]. rewrite Hr. rewrite IH.
    cbn [fmap list_fmap app]. f_equal.
    unfold mbind, exc_mbind, exc_bind, mret, exc_ret.
    destruct (mapM image_to_string imgs) as [texts|e]; [|done].
    cbn [mapM]. unfold mbind, exc_mbind, exc_bind, mret, exc_ret. rewrite Hr.
    destruct (mapM parse_fields texts) as [rows|e]; [|done].
    by rewrite <- app_assoc.
Qed.

(** [process_file] of [ticket_sorter.py]: its calls and its result. *)
Lemma sorter_process_file_spec path :
  ticket_sorter.process_file path
  = (load_event path :: match pages path with
                        | Ok imgs => Recognize <$> attempted imgs
                        | Raise _ => []
                        end,
     page_rows ticket_sorter.parse_fields path).
Proof.
  unfold ticket_sorter.process_file, load_event, page_rows, pages.
  assert (∀ text, ∃ r, ticket_sorter.parse_fields text = Ok r) as Htotal.
  { intros text. destruct (sorter_parse_fields_spec text) as (r & Hr & _). eauto. }
  destruct (is_pdf path).
  - rewrite bind_call.
    destruct (convert_from_path path) as [imgs|e]; [|done].
    rewrite (ocr_loop_spec _ Htotal). cbn [fst snd].
    rewrite exc_bind_Ok.
    by destruct (texts ← mapM image_to_string imgs; mapM _ texts).
  - rewrite bind_assoc, bind_call.
    destruct (Image_open path) as [img|e]; [|done].
    rewrite bind_ret_l, (ocr_loop_spec _ Htotal). cbn [fst snd].
    rewrite !exc_bind_Ok.
    by destruct (texts ← mapM image_to_string [img]; mapM _ texts).
Qed.

(** [process_file] of [ticket_app.py] is that of [ticket_sorter.py]
    inside the [try] that rewrites the message of the exception. *)
Lemma app_process_file_wraps path :
  ticket_app.process_file path
  = try_except (ticket_sorter.process_file path)
      (λ e, raise (str "OCR Error: " ++ e)).
Proof. reflexivity. Qed.

Lemma app_process_file_spec path :
  ticket_app.process_file path
  = (load_event path :: match pages path with
                        | Ok imgs => Recognize <$> attempted imgs
                        | Raise _ => []
                        end,
     match page_rows ticket_app.parse_fields path with
     | Ok rows => Ok rows
     | Raise e => Raise (str "OCR Error: " ++ e)
     end).
Proof.
  rewrite app_process_file_wraps, sorter_process_file_spec.
  unfold try_except, raise.
  change (page_rows ticket_sorter.parse_fields path)
    with (page_rows ticket_app.parse_fields path).
  destruct (page_rows ticket_app.parse_fields path); [done|].
  by rewrite app_nil_r.
Qed.

End ProcessFacts.

(** ** The claims about [process_file] and [run] *)
Section WorkerClaims.
Import Py Worker.
Context `{UnicodeData} `{Engines}.

Lemma app_returned_rows path :
  returned_rows ticket_app.process_file path
  = file_rows ticket_app.parse_fields path.
Proof.
  unfold returned_rows, file_rows. rewrite app_process_file_spec. simpl.
  by destruct (page_rows ticket_app.parse_fields path).
Qed.

Lemma sorter_returned_rows path :
  returned_rows ticket_sorter.process_file path
  = file_rows ticket_sorter.parse_fields path.
Proof.
  unfold returned_rows, file_rows. by rewrite sorter_process_file_spec.
Qed.

Lemma load_and_recognize_are_calls path :
  Forall (λ e, is_call e = true)
    (load_event path :: match pages path with
                        | Ok imgs => Recognize <$> attempted imgs
                        | Raise _ => []
                        end).
Proof.
  constructor.
  - unfold load_event. by destruct (is_pdf path).
  - destruct (pages path) as [imgs|e]; [|done].
    apply Forall_fmap, Forall_true. done.
Qed.

Lemma app_process_file_calls path :
  Forall (λ e, is_call e = true) (ticket_app.process_file path).1.
Proof. rewrite app_process_file_spec. apply load_and_recognize_are_calls. Qed.

Lemma sorter_process_file_calls path :
  Forall (λ e, is_call e = true) (ticket_sorter.process_file path).1.
Proof. rewrite sorter_process_file_spec. apply load_and_recognize_are_calls. Qed.

Lemma finished_lists_app (t1 t2 : list event) :
  finished_lists (t1 ++ t2) = finished_lists t1 ++ finished_lists t2.
Proof. apply omap_app. Qed.

Lemma finished_lists_calls (t : list event) :
  Forall (λ e, is_call e = true) t → finished_lists t = [].
Proof.
  induction 1 as [|e t He _ IH]; [done|].
  unfold finished_lists in *. simpl. by destruct e.
Qed.

Lemma files_events_finished process_file n paths :
  (∀ path, Forall (λ e, is_call e = true) (process_file path).1) →
  ∀ k, finished_lists (files_events process_file n k paths) = [].
Proof.
  intros Hcalls. induction paths as [|path paths IH]; intros k;
    cbn [files_events]; [done|].
  rewrite finished_lists_app, IH, app_nil_r.
  unfold file_events. rewrite !finished_lists_app.
  rewrite (finished_lists_calls _ (Hcalls path)).
  by destruct (process_file path).2.
Qed.

(** C2.  For every list of input files, [run] emits [finished] once, as
    its last signal, and the list it carries is the concatenation, in
    the order of the files, of what each file adds ([file_rows]): the
    rows of all its pages in page order when every page of the file was
    recognised, and nothing at all when processing the file raised,
    not even the rows of the pages recognised before the exception.
    Nothing else is dropped, merged or moved. *)
Theorem finished_is_the_concatenation (file_paths : list pystr) :
  (finished_lists (ticket_app.run file_paths).1
     = [file_paths ≫= file_rows ticket_app.parse_fields] ∧
   last (ticket_app.run file_paths).1
     = Some (Finished (file_paths ≫= file_rows ticket_app.parse_fields))) ∧
  (finished_lists (ticket_sorter.run file_paths).1
     = [file_paths ≫= file_rows ticket_sorter.parse_fields] ∧
   last (ticket_sorter.run file_paths).1
     = Some (Finished (file_paths ≫= file_rows ticket_sorter.parse_fields))).
Proof.
  unfold ticket_app.run, ticket_sorter.run. rewrite !worker_run_trace.
  cbn [fst]. rewrite !finished_lists_app, !last_snoc.
  rewrite (files_events_finished _ _ _ app_process_file_calls).
  rewrite (files_events_finished _ _ _ sorter_process_file_calls).
  assert (∀ l : list pystr,
            l ≫= returned_rows ticket_app.process_file
            = l ≫= file_rows ticket_app.parse_fields) as ->.
  { intros l. induction l as [|p l IH]; [done|].
    cbn [mbind list_bind]. by rewrite app_returned_rows, IH. }
  assert (∀ l : list pystr,
            l ≫= returned_rows ticket_sorter.process_file
            = l ≫= file_rows ticket_sorter.parse_fields) as ->.
  { intros l. induction l as [|p l IH]; [done|].
    cbn [mbind list_bind]. by rewrite sorter_returned_rows, IH. }
  done.
Qed.

(** A run over files one of which raises: the files before it, the
    failing file with its error line, the files after it, and
    [finished] with the rows of the others. *)
Lemma worker_run_failing process_file pre path post e :
  (process_file path).2 = Raise e →
  worker_run process_file (pre ++ path :: post)
  = (files_events process_file (length (pre ++ path :: post)) 1 pre
     ++ [Status (str "Processing (" ++ str_of_nat (S (length pre)) ++ str "/"
                 ++ str_of_nat (length (pre ++ path :: post)) ++ str "): "
                 ++ basename path)]
     ++ (process_file path).1
     ++ [Status (str "Error in " ++ basename path ++ str ": " ++ e)]
     ++ [Progress (prog_val (S (length pre)) (length (pre ++ path :: post)))]
     ++ files_events process_file (length (pre ++ path :: post))
          (S (S (length pre))) post
     ++ [Finished ((pre ≫= returned_rows process_file)
                   ++ (post ≫= returned_rows process_file))],
     Ok ()).
Proof.
  intros He. rewrite worker_run_trace. f_equal.
  rewrite files_events_app. cbn [files_events].
  unfold file_events. rewrite He.
  rewrite bind_app. cbn [mbind list_bind].
  unfold returned_rows at 2. rewrite He. cbn [app].
  change (1 + length pre) with (S (length pre)).
  rewrite <- !app_assoc. cbn [app]. by rewrite <- !app_assoc.
Qed.

(** C3.  When processing one file raises, [run] catches the exception
    (it goes on and returns), emits the status line
    ["Error in <basename>: <message>"] for that file, adds no row for
    it, processes every later file as it does any file, and emits
    [finished] with exactly the rows of the files that returned. *)
Theorem failing_file_is_skipped (pre : list pystr) (path : pystr)
    (post : list pystr) :
  (∀ e, (ticket_app.process_file path).2 = Raise e →
     ticket_app.run (pre ++ path :: post)
     = (files_events ticket_app.process_file (length (pre ++ path :: post)) 1 pre
        ++ [Status (str "Processing (" ++ str_of_nat (S (length pre)) ++ str "/"
                    ++ str_of_nat (length (pre ++ path :: post)) ++ str "): "
                    ++ basename path)]
        ++ (ticket_app.process_file path).1
        ++ [Status (str "Error in " ++ basename path ++ str ": " ++ e)]
        ++ [Progress (prog_val (S (length pre)) (length (pre ++ path :: post)))]
        ++ files_events ticket_app.process_file (length (pre ++ path :: post))
             (S (S (length pre))) post
        ++ [Finished ((pre ≫= returned_rows ticket_app.process_file)
                      ++ (post ≫= returned_rows ticket_app.process_file))],
        Ok ())) ∧
  (∀ e, (ticket_sorter.process_file path).2 = Raise e →
     ticket_sorter.run (pre ++ path :: post)
     = (files_events ticket_sorter.process_file (length (pre ++ path :: post)) 1 pre
        ++ [Status (str "Processing (" ++ str_of_nat (S (length pre)) ++ str "/"
                    ++ str_of_nat (length (pre ++ path :: post)) ++ str "): "
                    ++ basename path)]
        ++ (ticket_sorter.process_file path).1
        ++ [Status (str "Error in " ++ basename path ++ str ": " ++ e)]
        ++ [Progress (prog_val (S (length pre)) (length (pre ++ path :: post)))]
        ++ files_events ticket_sorter.process_file (length (pre ++ path :: post))
             (S (S (length pre))) post
        ++ [Finished ((pre ≫= returned_rows ticket_sorter.process_file)
                      ++ (post ≫= returned_rows ticket_sorter.process_file))],
        Ok ())).
Proof.
  split; intros e He; by apply worker_run_failing.
Qed.

(** C4, as amended.  [process_file] calls the PDF rasteriser when the
    path ends in [".pdf"] whatever the case of its letters, and only
    then; otherwise it opens the path as one image.  In both cases it
    runs the recogniser on the images in order, once each, until the
    recogniser raises on one: the images after that one are left alone
    and [process_file] raises.  When nothing raises it returns
    [parse_fields] of each recognised text, in order. *)
Theorem process_file_calls_and_rows (path : pystr) :
  ((ticket_app.process_file path).1
     = (if is_pdf path
        then Rasterize path :: match convert_from_path path with
                               | Ok imgs => Recognize <$> attempted imgs
                               | Raise _ => []
                               end
        else OpenImage path :: match Image_open path with
                               | Ok img => Recognize <$> attempted [img]
                               | Raise _ => []
                               end) ∧
   (ticket_app.process_file path).2
     = match imgs ← pages path;
             texts ← mapM image_to_string imgs;
             mapM ticket_app.parse_fields texts with
       | Ok rows => Ok rows
       | Raise e => Raise (str "OCR Error: " ++ e)
       end) ∧
  ((ticket_sorter.process_file path).1
     = (if is_pdf path
        then Rasterize path :: match convert_from_path path with
                               | Ok imgs => Recognize <$> attempted imgs
                               | Raise _ => []
                               end
        else OpenImage path :: match Image_open path with
                               | Ok img => Recognize <$> attempted [img]
                               | Raise _ => []
                               end) ∧
   (ticket_sorter.process_file path).2
     = (imgs ← pages path;
        texts ← mapM image_to_string imgs;
        mapM ticket_sorter.parse_fields texts)).
Proof.
  rewrite app_process_file_spec, sorter_process_file_spec. cbn [fst snd].
  unfold load_event, page_rows, pages.
  destruct (is_pdf path); [done|].
  by destruct (Image_open path).
Qed.

(** C9, as amended.  For a path that does not end in [".pdf"]: when
    the image opens and the recogniser returns a text, [process_file]
    returns a list of exactly one row, the row of that text whatever
    the text is; when either of the two raises, [process_file] raises
    and returns no list. *)
Theorem image_file_gives_one_row (path : pystr) :
  is_pdf path = false →
  match Image_open path with
  | Ok img =>
      match image_to_string img with
      | Ok text =>
          ∃ r, ticket_app.parse_fields text = Ok r ∧
               ticket_sorter.parse_fields text = Ok r ∧
               (ticket_app.process_file path).2 = Ok [r] ∧
               (ticket_sorter.process_file path).2 = Ok [r]
      | Raise e =>
          (ticket_app.process_file path).2 = Raise (str "OCR Error: " ++ e) ∧
          (ticket_sorter.process_file path).2 = Raise e
      end
  | Raise e =>
      (ticket_app.process_file path).2 = Raise (str "OCR Error: " ++ e) ∧
      (ticket_sorter.process_file path).2 = Raise e
  end.
Proof.
  intros Hpdf.
  rewrite app_process_file_spec, sorter_process_file_spec. cbn [fst snd].
  change (page_rows ticket_sorter.parse_fields path)
    with (page_rows ticket_app.parse_fields path).
  unfold page_rows, pages. rewrite Hpdf.
  destruct (Image_open path) as [img|e]; [|done].
  rewrite !exc_bind_Ok. cbn [mapM].
  destruct (image_to_string img) as [text|e]; [|done].
  rewrite !exc_bind_Ok. cbn [mapM].
  destruct (app_parse_fields_spec text) as (r & Hr & _).
  exists r. rewrite Hr. by split_and!.
Qed.

(** The progress values of a run over [n] files: one per file, the
    [k]-th of them [int((k / n) * 100)] in double precision. *)
Lemma run_progress_values (file_paths : list pystr) :
  progress_values (ticket_app.run file_paths).1
    = (λ k, prog_val k (length file_paths)) <$> seq 1 (length file_paths) ∧
  progress_values (ticket_sorter.run file_paths).1
    = (λ k, prog_val k (length file_paths)) <$> seq 1 (length file_paths).
Proof.
  unfold ticket_app.run, ticket_sorter.run. rewrite !worker_run_trace.
  cbn [fst]. rewrite !progress_values_app.
  rewrite (files_events_progress _ _ _ app_process_file_calls).
  rewrite (files_events_progress _ _ _ sorter_process_file_calls).
  by rewrite !app_nil_r.
Qed.

End WorkerClaims.

(** *** The run at the desk *)
Section AtTheDesk.
Import Py Worker.
#[local] Existing Instance ascii_tables.
#[local] Existing Instance desk.

Lemma failing_file_is_skipped_witness :
  let pre := [str "two.pdf"] in
  let path := str "x.png" in
  let post := [str "ok.png"] in
  let e := str "OCR Error: cannot identify image file" in
  (ticket_app.process_file path).2 = Raise e ∧
  ticket_app.run (pre ++ path :: post)
  = (files_events ticket_app.process_file 3 1 pre
     ++ [Status (str "Processing (2/3): x.png")]
     ++ [OpenImage path]
     ++ [Status (str "Error in x.png: OCR Error: cannot identify image file")]
     ++ [Progress 66]
     ++ files_events ticket_app.process_file 3 3 post
     ++ [Finished
           ((pre ≫= returned_rows ticket_app.process_file)
            ++ (post ≫= returned_rows ticket_app.process_file))],
     Ok ()).
Proof.
  intros pre path post e. split; [by vm_compute|].
  rewrite (proj1 (failing_file_is_skipped pre path post) e)
    by (by vm_compute).
  reflexivity.
Defined.

(** The two pages of [two.pdf] carry the same text: both rows are in
    the list of [finished]. *)
Example equal_rows_both_appear :
  (λ rows : list row, (λ r : row, r !! "Crew") <$> rows)
    <$> finished_lists (ticket_sorter.run [str "two.pdf"]).1
  = [ [Some (str "A7"); Some (str "A7")] ].
Proof. vm_compute. reflexivity. Qed.

(** C4 as it was stated fails: the first page of [torn.PDF] cannot be
    recognised, and the recogniser is never run on the second. *)
Lemma second_page_is_never_recognised :
  is_pdf (str "torn.PDF") = true ∧
  convert_from_path (str "torn.PDF")
    = Ok [Smudge; Page (str "Crew: B2")] ∧
  (ticket_app.process_file (str "torn.PDF")).1
    = [Rasterize (str "torn.PDF"); Recognize Smudge] ∧
  (ticket_sorter.process_file (str "torn.PDF")).1
    = [Rasterize (str "torn.PDF"); Recognize Smudge].
Proof. split_and!; by vm_compute. Qed.

(** C9 as it was stated fails: [x.png] cannot be opened, and
    [process_file] raises instead of returning a list of one row. *)
Lemma unreadable_image_gives_no_row :
  is_pdf (str "x.png") = false ∧
  (ticket_app.process_file (str "x.png")).2
    = Raise (str "OCR Error: cannot identify image file") ∧
  (ticket_sorter.process_file (str "x.png")).2
    = Raise (str "cannot identify image file").
Proof. split_and!; by vm_compute. Qed.

Lemma image_file_gives_one_row_witness :
  ∃ r, ticket_app.parse_fields (str "Unit Count: 3") = Ok r ∧
       ticket_sorter.parse_fields (str "Unit Count: 3") = Ok r ∧
       (ticket_app.process_file (str "ok.png")).2 = Ok [r] ∧
       (ticket_sorter.process_file (str "ok.png")).2 = Ok [r].
Proof.
  exact (image_file_gives_one_row (str "ok.png") eq_refl).
Defined.

(** C5, at the input where the program departs from it: of 50 files,
    the 29th makes the progress 57, while 29/50 of 100 is 58.  The
    quotient [29 / 50] is the double nearest to 0.58, a little below
    it; times 100 it rounds to the double just below 58, and [int]
    cuts the fraction off. *)
Theorem progress_after_29_of_50 :
  progress_values
    (ticket_app.run (replicate 50 (str "ok.png"))).1 !! 28
    = Some 57%Z ∧
  progress_values
    (ticket_sorter.run (replicate 50 (str "ok.png"))).1 !! 28
    = Some 57%Z ∧
  (29 * 100 `div` 50 = 58)%Z.
Proof.
  destruct (run_progress_values (replicate 50 (str "ok.png")))
    as [-> ->].
  split_and!; by vm_compute.
Qed.

End AtTheDesk.

Section AtTheWornDesk.
Import Py Worker.
#[local] Existing Instance ascii_tables.
#[local] Existing Instance worn_desk.

(** C2 as it was stated fails: the first page of [half.pdf] is
    recognised and reads as a row with the crew A7, the second page
    cannot be recognised, and the list of [finished] is empty: the row
    of the recognised page is not in it. *)
Lemma recognised_page_is_not_in_finished :
  convert_from_path (str "half.pdf") = Ok [Page (str "Crew: A7"); Smudge] ∧
  image_to_string (Page (str "Crew: A7")) = Ok (str "Crew: A7") ∧
  match ticket_app.parse_fields (str "Crew: A7") with
  | Ok r => r !! "Crew"
  | Raise _ => None
  end = Some (str "A7") ∧
  engine_calls (ticket_app.run [str "half.pdf"]).1
    = [Rasterize (str "half.pdf"); Recognize (Page (str "Crew: A7"));
       Recognize Smudge] ∧
  engine_calls (ticket_sorter.run [str "half.pdf"]).1
    = [Rasterize (str "half.pdf"); Recognize (Page (str "Crew: A7"));
       Recognize Smudge] ∧
  finished_lists (ticket_app.run [str "half.pdf"]).1 = [[]] ∧
  finished_lists (ticket_sorter.run [str "half.pdf"]).1 = [[]].
Proof. split_and!; by vm_compute. Qed.

End AtTheWornDesk.

(** ** The window *)
Section GuiFacts.
Import Py Gui.
Variable handle_upload : list pystr → window → window.
Variable handle_finished : list row → pystr → exc () → window → window.

(** What the slots of both files do to the button and the workers. *)
Hypothesis upload_nothing : ∀ w, handle_upload [] w = w.
Hypothesis upload_starts : ∀ file files w,
  btn_upload_enabled (handle_upload (file :: files) w) = false ∧
  workers (handle_upload (file :: files) w) = S (workers w).
Hypothesis finished_enables : ∀ results save_path written w,
  btn_upload_enabled (handle_finished results save_path written w) = true ∧
  workers (handle_finished results save_path written w) = workers w.

Lemma step_keeps_tracking w a w' :
  button_tracks_worker w →
  step handle_upload handle_finished w a w' →
  button_tracks_worker w'.
Proof using upload_nothing upload_starts finished_enables.
  unfold button_tracks_worker. intros Hw Hstep.
  destruct Hstep as [w files Hon|w s Hrun|w v Hrun|w results save_path written Hrun].
  - rewrite Hon in Hw. destruct files as [|file files].
    + by rewrite upload_nothing, Hon.
    + destruct (upload_starts file files w) as [-> ->]. by rewrite Hw.
  - done.
  - done.
  - destruct (finished_enables results save_path written (worker_done w))
      as [-> ->].
    simpl. destruct (btn_upload_enabled w); lia.
Qed.

Lemma reachable_tracks w :
  reachable handle_upload handle_finished w → button_tracks_worker w.
Proof using upload_nothing upload_starts finished_enables.
  induction 1 as [w [Hon Hnone]|w a w' _ IH Hstep].
  - unfold button_tracks_worker. by rewrite Hon, Hnone.
  - by eapply step_keeps_tracking.
Qed.

Lemma state_machine w :
  reachable handle_upload handle_finished w →
  workers w = (if btn_upload_enabled w then 0 else 1) ∧
  ∀ a w', step handle_upload handle_finished w a w' →
    (starts_worker a = true →
       workers w = 0 ∧ btn_upload_enabled w' = false ∧ workers w' = 1) ∧
    (btn_upload_enabled w = false →
       (btn_upload_enabled w' = true ↔ runs_handle_finished a = true)).
Proof using upload_nothing upload_starts finished_enables.
  intros Hreach. pose proof (reachable_tracks w Hreach) as Hw.
  split; [done|]. unfold button_tracks_worker in Hw.
  intros a w' Hstep.
  destruct Hstep as [w files Hon|w s Hrun|w v Hrun|w results save_path written Hrun];
    simpl.
  - rewrite Hon in Hw. split; [|by rewrite Hon].
    destruct files as [|file files]; [done|]. intros _.
    destruct (upload_starts file files w) as [-> ->]. by rewrite Hw.
  - split; [done|]. intros ->. split; done.
  - split; [done|]. intros ->. split; done.
  - split; [done|]. intros _.
    by destruct (finished_enables results save_path written (worker_done w))
      as [-> _].
Qed.

End GuiFacts.

(** C7.  The window is an idle / running / done machine.  In every
    window the program can get to, the upload button is enabled exactly
    while no worker runs, and at most one worker runs.  A step that
    starts a worker (a click with files selected) is taken with no
    worker running and leaves the button disabled; while the button is
    disabled, a step enables it if and only if it runs
    [handle_finished].  So no second worker is started while one
    runs. *)
Theorem one_worker_at_a_time :
  (∀ w, Gui.reachable ticket_app.handle_upload ticket_app.handle_finished w →
     Gui.workers w = (if Gui.btn_upload_enabled w then 0 else 1) ∧
     ∀ a w', Gui.step ticket_app.handle_upload ticket_app.handle_finished w a w' →
       (Gui.starts_worker a = true →
          Gui.workers w = 0 ∧ Gui.btn_upload_enabled w' = false ∧
          Gui.workers w' = 1) ∧
       (Gui.btn_upload_enabled w = false →
          (Gui.btn_upload_enabled w' = true ↔ Gui.runs_handle_finished a = true))) ∧
  (∀ w, Gui.reachable ticket_sorter.handle_upload ticket_sorter.handle_finished w →
     Gui.workers w = (if Gui.btn_upload_enabled w then 0 else 1) ∧
     ∀ a w', Gui.step ticket_sorter.handle_upload ticket_sorter.handle_finished w a w' →
       (Gui.starts_worker a = true →
          Gui.workers w = 0 ∧ Gui.btn_upload_enabled w' = false ∧
          Gui.workers w' = 1) ∧
       (Gui.btn_upload_enabled w = false →
          (Gui.btn_upload_enabled w' = true ↔ Gui.runs_handle_finished a = true))).
Proof.
  split; intros w; apply state_machine; try done.
  - intros results save_path written w0. unfold ticket_app.handle_finished.
    destruct results; [done|]. destruct save_path; [done|]. by destruct written.
  - intros results save_path written w0. unfold ticket_sorter.handle_finished.
    destruct results; [done|]. destruct save_path; [done|]. by destruct written.
Qed.

Lemma one_worker_at_a_time_witness :
  Gui.reachable ticket_app.handle_upload ticket_app.handle_finished
    (ticket_app.handle_upload [Py.str "ok.png"] fresh_window) ∧
  Gui.workers (ticket_app.handle_upload [Py.str "ok.png"] fresh_window) = 1 ∧
  Gui.btn_upload_enabled (ticket_app.handle_upload [Py.str "ok.png"] fresh_window)
    = false.
Proof.
  assert (Gui.reachable ticket_app.handle_upload ticket_app.handle_finished
            fresh_window) as Hfresh.
  { apply Gui.reachable_initial. by split. }
  assert (Gui.step ticket_app.handle_upload ticket_app.handle_finished
            fresh_window (Gui.Clicked [Py.str "ok.png"])
            (ticket_app.handle_upload [Py.str "ok.png"] fresh_window)) as Hstep.
  { by apply Gui.step_clicked. }
  split; [by eapply Gui.reachable_step|].
  destruct (proj1 one_worker_at_a_time fresh_window Hfresh) as [_ Hsteps].
  destruct (Hsteps _ _ Hstep) as [Hstart _].
  destruct (Hstart eq_refl) as (_ & Hoff & Hone). by split.
Defined.

(** * Further properties of the program *)

(** ** What a run is made of *)
Section RunFacts.
Import Py Worker.
Context `{UnicodeData} `{Engines}.

Lemma status_lines_app (t1 t2 : list event) :
  status_lines (t1 ++ t2) = status_lines t1 ++ status_lines t2.
Proof. apply omap_app. Qed.

Lemma status_lines_calls (t : list event) :
  Forall (λ e, is_call e = true) t → status_lines t = [].
Proof.
  induction 1 as [|e t He _ IH]; [done|].
  unfold status_lines in *. simpl. by destruct e.
Qed.

Lemma engine_calls_app (t1 t2 : list event) :
  engine_calls (t1 ++ t2) = engine_calls t1 ++ engine_calls t2.
Proof. apply filter_app. Qed.

Lemma engine_calls_calls (t : list event) :
  Forall (λ e, is_call e = true) t → engine_calls t = t.
Proof.
  induction 1 as [|e t He _ IH]; [done|].
  unfold engine_calls in *. rewrite filter_cons_True by done. by rewrite IH.
Qed.

Section OverProcessFile.
Variable process_file : pystr → io (list row).
Hypothesis only_calls :
  ∀ path, Forall (λ e, is_call e = true) (process_file path).1.

Lemma files_events_calls n paths :
  ∀ k, engine_calls (files_events process_file n k paths)
       = paths ≫= (λ path, (process_file path).1).
Proof using only_calls.
  induction paths as [|path paths IH]; intros k;
    cbn [files_events mbind list_bind]; [done|].
  rewrite engine_calls_app, IH. f_equal.
  unfold file_events. rewrite !engine_calls_app.
  rewrite (engine_calls_calls _ (only_calls path)).
  destruct (process_file path).2; cbn; by rewrite app_nil_r.
Qed.

Lemma files_events_status n paths :
  ∀ k, status_lines (files_events process_file n k paths)
       = concat (imap (λ i path,
           (str "Processing (" ++ str_of_nat (k + i) ++ str "/"
              ++ str_of_nat n ++ str "): " ++ basename path)
           :: match (process_file path).2 with
              | Ok _ => []
              | Raise e => [str "Error in " ++ basename path ++ str ": " ++ e]
              end) paths).
Proof using only_calls.
  induction paths as [|path paths IH]; intros k;
    cbn [files_events imap concat]; [done|].
  rewrite status_lines_app, IH. f_equal.
  - unfold file_events. rewrite !status_lines_app.
    rewrite (status_lines_calls _ (only_calls path)), Nat.add_0_r.
    by destruct (process_file path).2.
  - f_equal. apply imap_ext. intros i path' _. cbn.
    by rewrite Nat.add_succ_r.
Qed.

End OverProcessFile.
End RunFacts.

Section RunProperties.
Import Py Worker.
Context `{UnicodeData} `{Engines}.

(** X1.  A run emits one progress value per file, in order: after the
    [k]-th of [n] files the value [int((k / n) * 100)] computed in
    doubles. *)
Theorem one_progress_value_per_file (file_paths : list pystr) :
  (progress_values (ticket_app.run file_paths).1
     = (λ k, prog_val k (length file_paths)) <$> seq 1 (length file_paths) ∧
   length (progress_values (ticket_app.run file_paths).1) = length file_paths) ∧
  (progress_values (ticket_sorter.run file_paths).1
     = (λ k, prog_val k (length file_paths)) <$> seq 1 (length file_paths) ∧
   length (progress_values (ticket_sorter.run file_paths).1) = length file_paths).
Proof.
  destruct (run_progress_values file_paths) as [-> ->].
  by rewrite length_fmap, length_seq.
Qed.

(** X2.  The calls a run makes to the engines are those of
    [process_file] for each file, in the order of the list, once per
    entry of the list; [run] itself calls no engine. *)
Theorem run_calls_are_the_files_calls (file_paths : list pystr) :
  engine_calls (ticket_app.run file_paths).1
    = file_paths ≫= (λ path, (ticket_app.process_file path).1) ∧
  engine_calls (ticket_sorter.run file_paths).1
    = file_paths ≫= (λ path, (ticket_sorter.process_file path).1).
Proof.
  unfold ticket_app.run, ticket_sorter.run. rewrite !worker_run_trace.
  cbn [fst]. rewrite !engine_calls_app.
  rewrite (files_events_calls _ app_process_file_calls).
  rewrite (files_events_calls _ sorter_process_file_calls).
  by rewrite !app_nil_r.
Qed.

(** X3.  The status lines of a run: for the [k]-th of [n] files the line
    ["Processing (k/n): <basename>"], followed by
    ["Error in <basename>: <message>"] exactly when processing that
    file raised; nothing else. *)
Theorem run_status_lines (file_paths : list pystr) :
  status_lines (ticket_app.run file_paths).1
    = concat (imap (λ i path,
        (str "Processing (" ++ str_of_nat (1 + i) ++ str "/"
           ++ str_of_nat (length file_paths) ++ str "): " ++ basename path)
        :: match (ticket_app.process_file path).2 with
           | Ok _ => []
           | Raise e => [str "Error in " ++ basename path ++ str ": " ++ e]
           end) file_paths) ∧
  status_lines (ticket_sorter.run file_paths).1
    = concat (imap (λ i path,
        (str "Processing (" ++ str_of_nat (1 + i) ++ str "/"
           ++ str_of_nat (length file_paths) ++ str "): " ++ basename path)
        :: match (ticket_sorter.process_file path).2 with
           | Ok _ => []
           | Raise e => [str "Error in " ++ basename path ++ str ": " ++ e]
           end) file_paths).
Proof.
  unfold ticket_app.run, ticket_sorter.run. rewrite !worker_run_trace.
  cbn [fst]. rewrite !status_lines_app.
  rewrite (files_events_status _ app_process_file_calls).
  rewrite (files_events_status _ sorter_process_file_calls).
  by rewrite !app_nil_r.
Qed.

(** X4.  The two files' [process_file] make the same calls and return
    the same rows; they differ only in the exception they raise, whose
    message [ticket_app.py] prefixes with ["OCR Error: "]. *)
Theorem process_file_variants_agree (path : pystr) :
  (ticket_app.process_file path).1 = (ticket_sorter.process_file path).1 ∧
  (ticket_app.process_file path).2
    = match (ticket_sorter.process_file path).2 with
      | Ok rows => Ok rows
      | Raise e => Raise (str "OCR Error: " ++ e)
      end.
Proof.
  by rewrite app_process_file_spec, sorter_process_file_spec.
Qed.

(** X5.  The two files' [run] make the same calls and emit the same
    progress values and the same [finished] list: the spreadsheet rows
    do not depend on which of the two programs is used.  And both
    return: no exception leaves [run], whatever the engines do. *)
Theorem run_variants_agree (file_paths : list pystr) :
  engine_calls (ticket_app.run file_paths).1
    = engine_calls (ticket_sorter.run file_paths).1 ∧
  progress_values (ticket_app.run file_paths).1
    = progress_values (ticket_sorter.run file_paths).1 ∧
  finished_lists (ticket_app.run file_paths).1
    = finished_lists (ticket_sorter.run file_paths).1 ∧
  (ticket_app.run file_paths).2 = Ok () ∧
  (ticket_sorter.run file_paths).2 = Ok ().
Proof.
  destruct (run_progress_values file_paths) as [-> ->].
  unfold ticket_app.run, ticket_sorter.run. rewrite !worker_run_trace.
  cbn [fst snd]. rewrite !engine_calls_app, !finished_lists_app.
  rewrite !(files_events_calls _ app_process_file_calls).
  rewrite !(files_events_calls _ sorter_process_file_calls).
  rewrite !(files_events_finished _ _ _ app_process_file_calls).
  rewrite !(files_events_finished _ _ _ sorter_process_file_calls).
  assert (∀ l : list pystr,
            l ≫= (λ path, (ticket_app.process_file path).1)
            = l ≫= (λ path, (ticket_sorter.process_file path).1)) as ->.
  { intros l. induction l as [|p l IH]; [done|]. cbn [mbind list_bind].
    by rewrite IH, app_process_file_spec, sorter_process_file_spec. }
  assert (∀ l : list pystr,
            l ≫= returned_rows ticket_app.process_file
            = l ≫= returned_rows ticket_sorter.process_file) as ->.
  { intros l. induction l as [|p l IH]; [done|]. cbn [mbind list_bind].
    by rewrite IH, app_returned_rows, sorter_returned_rows. }
  done.
Qed.

End RunProperties.

(** ** Rows and pages *)
Section PageFacts.
Import Py Worker.
Context `{UnicodeData} `{Engines}.

Lemma exc_mapM_length {A B} (f : A → exc B) l k :
  mapM f l = Ok k → length k = length l.
Proof.
  revert k. induction l as [|x l IH]; intros k; cbn [mapM].
  - by intros [= <-].
  - destruct (f x) as [y|e]; [|done]. rewrite exc_bind_Ok.
    destruct (mapM f l) as [k'|e]; [|done]. rewrite exc_bind_Ok.
    intros [= <-]. simpl. by rewrite (IH k').
Qed.

Lemma attempted_all imgs texts :
  mapM image_to_string imgs = Ok texts → attempted imgs = imgs.
Proof.
  revert texts. induction imgs as [|img imgs IH]; intros texts;
    cbn [mapM attempted]; [done|].
  destruct (image_to_string img) as [text|e]; [|done]. rewrite exc_bind_Ok.
  destruct (mapM image_to_string imgs) as [texts'|e]; [|done].
  intros _. by rewrite (IH texts').
Qed.

Lemma page_rows_returned parse_fields path rows :
  page_rows parse_fields path = Ok rows →
  ∃ imgs, pages path = Ok imgs ∧ length rows = length imgs ∧
          attempted imgs = imgs.
Proof.
  unfold page_rows. destruct (pages path) as [imgs|e]; [|done].
  rewrite exc_bind_Ok.
  destruct (mapM image_to_string imgs) as [texts|e] eqn:Htexts; [|done].
  rewrite exc_bind_Ok. intros Hrows. exists imgs. split_and!; [done| |].
  - rewrite (exc_mapM_length _ _ _ Hrows). by apply exc_mapM_length in Htexts.
  - by apply attempted_all in Htexts.
Qed.

(** X6.  When [process_file] returns, it returns one row per page of
    the file (one row for an image), and it ran the recogniser on every
    page, once each in page order, after the one call that loaded the
    file. *)
Theorem returned_rows_match_pages (path : pystr) (rows : list row) :
  ((ticket_app.process_file path).2 = Ok rows →
     ∃ imgs, pages path = Ok imgs ∧ length rows = length imgs ∧
       (ticket_app.process_file path).1
         = load_event path :: (Recognize <$> imgs)) ∧
  ((ticket_sorter.process_file path).2 = Ok rows →
     ∃ imgs, pages path = Ok imgs ∧ length rows = length imgs ∧
       (ticket_sorter.process_file path).1
         = load_event path :: (Recognize <$> imgs)).
Proof.
  rewrite app_process_file_spec, sorter_process_file_spec. cbn [fst snd].
  split.
  - destruct (page_rows ticket_app.parse_fields path) as [rows'|e] eqn:Hp;
      [|done].
    intros [= ->]. apply page_rows_returned in Hp as (imgs & Hi & Hlen & Hall).
    exists imgs. by rewrite Hi, Hall.
  - intros Hp. apply page_rows_returned in Hp as (imgs & Hi & Hlen & Hall).
    exists imgs. by rewrite Hi, Hall.
Qed.

End PageFacts.

Lemma desk_two_pdf_returns :
  ∃ rows, (@ticket_sorter.process_file ascii_tables desk (Py.str "two.pdf")).2
          = Py.Ok rows.
Proof.
  destruct (@ticket_sorter.process_file ascii_tables desk (Py.str "two.pdf")).2
    as [rows|e] eqn:Hrows; [by exists rows|].
  assert (match (@ticket_sorter.process_file ascii_tables desk
                   (Py.str "two.pdf")).2 with
          | Py.Ok _ => True
          | Py.Raise _ => False
          end) as Hok by (vm_compute; exact I).
  by rewrite Hrows in Hok.
Qed.

Lemma returned_rows_match_pages_witness :
  ∃ rows imgs,
    @Worker.pages ascii_tables desk (Py.str "two.pdf") = Py.Ok imgs ∧
    length (rows : list row) = length imgs ∧
    (@ticket_sorter.process_file ascii_tables desk (Py.str "two.pdf")).1
      = @Worker.load_event ascii_tables desk (Py.str "two.pdf")
        :: (Worker.Recognize <$> imgs).
Proof.
  destruct desk_two_pdf_returns as [rows Hrows]. exists rows.
  exact (proj2 (@returned_rows_match_pages ascii_tables desk
                  (Py.str "two.pdf") rows) Hrows).
Defined.

(** ** More about the values of a row *)
Section ValueFacts.
Import Py.
Context `{UnicodeData}.

Lemma lstrip_elem_of c s : c ∈ lstrip s → c ∈ s.
Proof.
  destruct (lstrip_spec s) as (pre & Hs & _). intros Hc.
  rewrite Hs. apply elem_of_app. by right.
Qed.

Lemma strip_elem_of c s : c ∈ strip s → c ∈ s.
Proof.
  unfold strip. intros Hc. apply lstrip_elem_of.
  destruct (rstrip_spec (lstrip s)) as (post & Hs & _).
  rewrite Hs. apply elem_of_app. by left.
Qed.

(** A property of values that ["N/A"] has and every stripped group of
    the table has holds of every value of the row. *)
Lemma parse_loop_invariant (P : pystr → Prop) text items :
  P (str "N/A") →
  Forall (λ fp, ∀ m g, re_search fp.2 text true = Some m →
                       group m 1 = Some g → P (strip g)) items →
  ∀ r0 r : row,
    parse_loop items text r0 = Ok r →
    map_Forall (λ _ v, P v) r0 → map_Forall (λ _ v, P v) r.
Proof.
  intros Hna. induction items as [|[field pattern] items IH];
    intros Hitems r0 r; simpl.
  - by intros [= <-].
  - apply Forall_cons in Hitems as [Hfp Hitems]. simpl in Hfp.
    destruct (re_search pattern text true) as [m|] eqn:Hs.
    + destruct (group m 1) as [g|] eqn:Hg; [|done].
      intros Hr Hr0. apply (IH Hitems _ _ Hr).
      apply map_Forall_insert_2; [|done]. by apply (Hfp m g).
    + intros Hr Hr0. apply (IH Hitems _ _ Hr).
      by apply map_Forall_insert_2.
Qed.

(** A pattern that is one group [(x{lo,hi})]: where the group lies in
    the text and what it holds. *)
Lemma bare_group_inv ic lo hi cs text m :
  re_search (Group 1 (Repeat lo hi cs)) text ic = Some m →
  ∃ pre w post,
    text = pre ++ w ++ post ∧ group m 1 = Some w ∧ lo ≤ length w ∧
    (∀ h, hi = Some h → length w ≤ h) ∧
    Forall (λ c, cs_match ic cs c = true) w.
Proof.
  intros Hs. apply re_search_sound in Hs as (pre & rest & s' & -> & Hm).
  inversion Hm as [| | | |j r w s0 g0 g1 Hr]; subst.
  inversion Hr as [| | |lo' hi' cs' w' s1 g2 Hall Hlo Hhi Heq|]; subst.
  match goal with Heq : _ ++ _ = _ ++ _ |- _ => apply app_inv_tail in Heq as -> end.
  exists pre, w, s'. unfold group.
  match goal with Heq : _ = m_groups m |- _ => rewrite <- Heq end.
  by rewrite lookup_insert_eq.
Qed.

End ValueFacts.

(** ** Lines and ticket ids *)
Section SingleLine.
Import Py.
Context `{UnicodeData}.
Hypothesis digits_not_space : ∀ c, isdecimal c = true → isspace c = false.

Lemma newline_is_space : isspace 0x0A = true.
Proof. reflexivity. Qed.

Lemma any_group_no_newline ic (w : pystr) :
  Forall (λ c, cs_match ic Any c = true) w → 0x0A%N ∉ w.
Proof.
  rewrite Forall_forall. intros Hw Hin. specialize (Hw _ Hin). done.
Qed.

Lemma digit_group_no_newline ic (w : pystr) :
  Forall (λ c, cs_match ic Digit c = true) w → 0x0A%N ∉ w.
Proof using digits_not_space.
  rewrite Forall_forall. intros Hw Hin. specialize (Hw _ Hin). simpl in Hw.
  apply digits_not_space in Hw. by rewrite newline_is_space in Hw.
Qed.

Lemma measure_group_no_newline ic (w : pystr) :
  Forall (λ c, cs_match ic (Alt Digit (Lit 0x2E)) c = true) w → 0x0A%N ∉ w.
Proof using digits_not_space.
  rewrite Forall_forall. intros Hw Hin. specialize (Hw _ Hin).
  cbn [cs_match] in Hw. apply orb_true_iff in Hw as [Hw|Hw].
  - apply digits_not_space in Hw. by rewrite newline_is_space in Hw.
  - by apply lit_match_period in Hw.
Qed.

Lemma patterns_single_line text :
  Forall (λ fp, ∀ m g, re_search fp.2 text true = Some m →
                       group m 1 = Some g → 0x0A%N ∉ strip g)
    ticket_app.patterns.
Proof using digits_not_space.
  unfold ticket_app.patterns.
  repeat (apply Forall_cons; split); [..|by constructor];
    cbv beta; cbn [snd]; intros m g Hs Hg Hin; apply strip_elem_of in Hin; revert Hin.
  all: first
    [ apply bare_group_inv in Hs as (pre & w & post & _ & Hw & _ & _ & Hall)
    | apply labelled_group_inv in Hs as (w & Hw & _ & Hall) ];
    rewrite Hg in Hw; injection Hw as ->.
  all: first [ by apply (any_group_no_newline true)
             | by apply (digit_group_no_newline true)
             | by apply (measure_group_no_newline true) ].
Qed.

Lemma na_single_line : 0x0A%N ∉ str "N/A".
Proof. apply (bool_decide_unpack _). by vm_compute. Qed.

(** X7.  No value of a row holds a newline: every field is one line of
    the text or a part of one. *)
Theorem values_are_single_line (text : pystr) :
  (∃ r : row, ticket_app.parse_fields text = Ok r ∧
              map_Forall (λ _ v, 0x0A%N ∉ v) r) ∧
  (∃ r : row, ticket_sorter.parse_fields text = Ok r ∧
              map_Forall (λ _ v, 0x0A%N ∉ v) r).
Proof using digits_not_space.
  change (ticket_sorter.parse_fields text) with (ticket_app.parse_fields text).
  assert (∃ r : row, ticket_app.parse_fields text = Ok r ∧
                     map_Forall (λ _ v, 0x0A%N ∉ v) r) as Hrow; [|by split].
  destruct (app_parse_fields_spec text) as (r & Hr & _). exists r.
  split; [done|].
  apply (parse_loop_invariant (λ v, 0x0A%N ∉ v) text ticket_app.patterns
           na_single_line (patterns_single_line text) ∅ r Hr).
  apply map_Forall_empty.
Qed.

(** X8.  The ticket id is ["N/A"] exactly when the text has no nine
    decimal digits in a row; otherwise it is a run of nine or ten
    decimal digits of the text. *)
Theorem ticket_id_value (text : pystr) :
  ∃ (r : row) (v : pystr),
    ticket_app.parse_fields text = Ok r ∧
    ticket_sorter.parse_fields text = Ok r ∧
    r !! "Ticket_ID" = Some v ∧
    ((v = str "N/A" ∧
      ∀ pre w post, text = pre ++ w ++ post → length w = 9 →
                    ¬ Forall (λ c, isdecimal c = true) w) ∨
     ((length v = 9 ∨ length v = 10) ∧
      Forall (λ c, isdecimal c = true) v ∧
      ∃ pre post, text = pre ++ v ++ post)).
Proof using digits_not_space.
  destruct (app_parse_fields_spec text) as (r & Hr & _ & Hall).
  pose proof (Forall_lookup_1 _ _ 0 _ Hall eq_refl) as Hid.
  unfold extracted in Hid. cbn [fst snd] in Hid.
  destruct (re_search _ text true) as [m|] eqn:Hs.
  - destruct Hid as (g & Hg & Hv).
    apply bare_group_inv in Hs as (pre & w & post & Htext & Hw & Hlo & Hhi & Hd).
    rewrite Hg in Hw. injection Hw as ->. specialize (Hhi 10 eq_refl).
    cbn [cs_match] in Hd.
    assert (strip w = w) as Hstrip.
    { apply strip_id, Forall_trimmed. eapply Forall_impl; [done|].
      apply digits_not_space. }
    rewrite Hstrip in Hv. exists r, w. split_and!; [done|done|done|].
    right. split_and!; [lia|done|by exists pre, post].
  - exists r, (str "N/A"). split_and!; [done|done|done|]. left. split; [done|].
    intros pre w post Htext Hlen Hd.
    apply (proj1 (re_search_none_iff _ _ _) Hs pre (w ++ post) post
             (<[1 := w]> ∅) Htext).
    constructor. constructor; [done|lia|]. intros h [= <-]. lia.
Qed.

End SingleLine.


Lemma values_are_single_line_witness :
  (∃ r : row,
     @ticket_app.parse_fields ascii_tables (Py.str "Crew: A7") = Py.Ok r ∧
     map_Forall (λ _ v, 0x0A%N ∉ v) r) ∧
  (∃ r : row,
     @ticket_sorter.parse_fields ascii_tables (Py.str "Crew: A7") = Py.Ok r ∧
     map_Forall (λ _ v, 0x0A%N ∉ v) r).
Proof.
  exact (@values_are_single_line ascii_tables ascii_digits_not_space
           (Py.str "Crew: A7")).
Defined.

Lemma ticket_id_value_witness :
  ∃ (r : row) (v : pystr),
    @ticket_app.parse_fields ascii_tables (Py.str "No 123456789012") = Py.Ok r ∧
    @ticket_sorter.parse_fields ascii_tables (Py.str "No 123456789012") = Py.Ok r ∧
    r !! "Ticket_ID" = Some v ∧
    ((v = Py.str "N/A" ∧
      ∀ pre w post, Py.str "No 123456789012" = pre ++ w ++ post →
                    length w = 9 →
                    ¬ Forall (λ c, @Py.isdecimal ascii_tables c = true) w) ∨
     ((length v = 9 ∨ length v = 10) ∧
      Forall (λ c, @Py.isdecimal ascii_tables c = true) v ∧
      ∃ pre post, Py.str "No 123456789012" = pre ++ v ++ post)).
Proof.
  exact (@ticket_id_value ascii_tables ascii_digits_not_space
           (Py.str "No 123456789012")).
Defined.

(** ** Where [re.search] stops *)
Section SearchFacts.
Import Py.
Context `{UnicodeData} (ic : bool).

(** The match [search_from] returns is the engine's at the first
    position where the engine finds one. *)
Lemma search_from_first r pos s m :
  search_from ic r pos s = Some m →
  ∃ pre rest s',
    s = pre ++ rest ∧ m_start m = pos + length pre ∧
    match_at ic r rest ∅ (λ s' g, Some (s', g)) = Some (s', m_groups m).
Proof.
  revert pos. induction s as [|c s IH]; intros pos; simpl.
  - destruct (match_at ic r [] ∅ _) as [[s' g]|] eqn:Hm; [|done].
    intros [= <-]. exists [], [], s'. simpl. split_and!; [done|lia|done].
  - destruct (match_at ic r (c :: s) ∅ _) as [[s' g]|] eqn:Hm.
    + intros [= <-]. exists [], (c :: s), s'. simpl. split_and!; [done|lia|done].
    + intros Hs. destruct (IH _ Hs) as (pre & rest & s' & -> & Hstart & Hm').
      exists (c :: pre), rest, s'. simpl. split_and!; [done|lia|done].
Qed.

(** Where the engine finds a match, [search_from] returns one that
    starts there or earlier. *)
Lemma search_from_finds r pos pre rest :
  is_Some (match_at ic r rest ∅ (λ s' g, Some (s', g))) →
  ∃ m, search_from ic r pos (pre ++ rest) = Some m ∧
       m_start m ≤ pos + length pre.
Proof.
  intros Hrest. revert pos. induction pre as [|c pre IH]; intros pos.
  - destruct Hrest as [[s' g] Hm]. simpl.
    destruct rest as [|c rest]; simpl; rewrite Hm; eexists; split; try done;
      simpl; lia.
  - simpl. destruct (match_at ic r (c :: pre ++ rest) ∅ _) as [[s' g]|].
    + eexists. split; [done|]. simpl. lia.
    + destruct (IH (S pos)) as (m & Hm & Hle). exists m. split; [done|]. lia.
Qed.

(** The engine on the Sub-Contractor pattern: after the four
    characters of ["Sub-"] it goes on as on the Contractor pattern. *)
Lemma sub_contractor_engine {A} rest (k : pystr → gmap nat pystr → option A) res :
  match_at ic
    (seq_of [lit "Sub-Contractor:"; star Space; Group 1 (star Any)]) rest ∅ k
    = Some res →
  ∃ c1 c2 c3 c4 rest',
    rest = c1 :: c2 :: c3 :: c4 :: rest' ∧
    match_at ic
      (seq_of [lit "Contractor:"; star Space; Group 1 (star Any)]) rest' ∅ k
      = Some res.
Proof.
  change (lit "Sub-Contractor:")
    with (Cat (One (Lit 0x53)) (Cat (One (Lit 0x75)) (Cat (One (Lit 0x62))
           (Cat (One (Lit 0x2D)) (lit "Contractor:"))))).
  cbn [seq_of foldr match_at].
  destruct rest as [|c1 [|c2 [|c3 [|c4 rest']]]];
    repeat (try done; match goal with
            | |- context [if ?b then _ else _] => destruct b
            end).
  intros Hm. by exists c1, c2, c3, c4, rest'.
Qed.

End SearchFacts.

Section ContractorFacts.
Import Py.
Context `{UnicodeData}.

(** X9.  The Contractor pattern also matches inside a Sub-Contractor
    label.  Whenever the text has a match of the Sub-Contractor pattern,
    the Contractor pattern matches as well, no later than at the
    ["Contractor:"] inside that label; and when it matches exactly
    there (no Contractor label stands earlier in the text), the
    Contractor field holds the value of the Sub-Contractor field. *)
Theorem contractor_matches_inside_sub_contractor (text : pystr) :
  ∃ r : row,
    ticket_app.parse_fields text = Ok r ∧
    ticket_sorter.parse_fields text = Ok r ∧
    ∀ m,
      re_search (seq_of [lit "Sub-Contractor:"; star Space; Group 1 (star Any)])
        text true = Some m →
      ∃ m',
        re_search (seq_of [lit "Contractor:"; star Space; Group 1 (star Any)])
          text true = Some m' ∧
        m_start m' ≤ m_start m + 4 ∧
        (∃ g', group m' 1 = Some g' ∧ r !! "Contractor" = Some (strip g')) ∧
        (m_start m' = m_start m + 4 →
           r !! "Contractor" = r !! "Sub-Contractor").
Proof.
  destruct (app_parse_fields_spec text) as (r & Hr & _ & Hall).
  exists r. split_and!; [done|done|]. intros m Hs.
  pose proof (Forall_lookup_1 _ _ 5 _ Hall eq_refl) as Hcon.
  pose proof (Forall_lookup_1 _ _ 6 _ Hall eq_refl) as Hsub.
  unfold extracted in Hcon, Hsub. cbn [fst snd] in Hcon, Hsub.
  rewrite Hs in Hsub. destruct Hsub as (g & Hg & Hvsub).
  apply search_from_first in Hs as (pre & rest & s' & Htext & Hstart & Hm).
  apply sub_contractor_engine in Hm as (c1 & c2 & c3 & c4 & rest' & -> & Hm).
  destruct (search_from_finds true
              (seq_of [lit "Contractor:"; star Space; Group 1 (star Any)])
              0 (pre ++ [c1; c2; c3; c4]) rest')
    as (m' & Hs' & Hle); [by rewrite Hm|].
  rewrite <- app_assoc in Hs'. cbn [app] in Hs'. rewrite <- Htext in Hs'.
  rewrite length_app in Hle. cbn [length] in Hle.
  unfold re_search in Hcon |- *. rewrite Hs' in Hcon |- *.
  destruct Hcon as (g' & Hg' & Hvcon).
  exists m'. split_and!; [done|lia|by exists g'|].
  intros Hsame.
  apply search_from_first in Hs' as (pre2 & rest2 & s2 & Htext2 & Hstart2 & Hm2).
  assert (pre2 = pre ++ [c1; c2; c3; c4] ∧ rest2 = rest') as [-> ->].
  { apply app_inj_1.
    - rewrite length_app. cbn [length]. lia.
    - rewrite <- Htext2, Htext, <- app_assoc. done. }
  rewrite Hm in Hm2. injection Hm2 as _ Hgroups.
  unfold group in Hg, Hg'. rewrite Hgroups, Hg' in Hg. injection Hg as ->.
  by rewrite Hvcon, Hvsub.
Qed.

End ContractorFacts.

Lemma contractor_matches_inside_sub_contractor_witness :
  ∃ r : row,
    @ticket_app.parse_fields ascii_tables (Py.str "Sub-Contractor: Bob") = Py.Ok r ∧
    r !! "Contractor" = r !! "Sub-Contractor".
Proof.
  destruct (@contractor_matches_inside_sub_contractor ascii_tables
              (Py.str "Sub-Contractor: Bob")) as (r & Hr & _ & Hm).
  exists r. split; [done|].
  assert (Py.m_start <$>
            @Py.re_search ascii_tables
              (Py.seq_of [Py.lit "Sub-Contractor:"; Py.star Py.Space;
                          Py.Group 1 (Py.star Py.Any)])
              (Py.str "Sub-Contractor: Bob") true = Some 0) as Hsub
    by (vm_compute; reflexivity).
  assert (Py.m_start <$>
            @Py.re_search ascii_tables
              (Py.seq_of [Py.lit "Contractor:"; Py.star Py.Space;
                          Py.Group 1 (Py.star Py.Any)])
              (Py.str "Sub-Contractor: Bob") true = Some 4) as Hcon
    by (vm_compute; reflexivity).
  destruct (Py.re_search _ (Py.str "Sub-Contractor: Bob") true) as [m|] eqn:Hs;
    [|done].
  destruct (Hm m eq_refl) as (m' & Hs' & _ & _ & Hsame).
  rewrite Hs' in Hcon. injection Hsub as Hsub. injection Hcon as Hcon.
  apply Hsame. by rewrite Hsub, Hcon.
Defined.

(** ** The labelled fields *)
Section LabelFacts.
Import Py.
Context `{UnicodeData} (ic : bool).

(** A literal text matches a stretch of the same length, character by
    character. *)
Lemma lit_matches_inv label s g s' g' :
  matches ic (lit label) s g s' g' →
  ∃ lab, s = lab ++ s' ∧ g' = g ∧
         Forall2 (λ p c, lit_match ic p c = true) (str label) lab.
Proof.
  unfold lit. generalize (str label). intros l. revert s g.
  induction l as [|p l IH]; intros s g Hm; simpl in Hm.
  - apply matches_empty_inv in Hm as [-> ->]. by exists [].
  - apply matches_cat_inv in Hm as (s1 & g1 & Hone & Hm).
    inversion Hone as [|cs c s0 g0 Hc| | |]; subst.
    destruct (IH _ _ Hm) as (lab & -> & -> & Hlab).
    exists (c :: lab). split_and!; [done|done|by constructor].
Qed.

Lemma lit_matches label lab s g :
  Forall2 (λ p c, lit_match ic p c = true) (str label) lab →
  matches ic (lit label) (lab ++ s) g s g.
Proof.
  unfold lit. generalize (str label). intros l.
  induction 1 as [|p c l lab Hc _ IH]; simpl.
  - constructor.
  - econstructor; [by constructor|done].
Qed.

Lemma backoff_first {A} lo n (k : nat → option A) res :
  lo ≤ n → k n = Some res → backoff lo n k = Some res.
Proof.
  intros Hlo Hk. destruct n as [|n]; simpl.
  - destruct (Nat.ltb_spec 0 lo); [lia|]. by rewrite Hk.
  - destruct (Nat.ltb_spec (S n) lo); [lia|]. by rewrite Hk.
Qed.

Lemma run_length_le p s : run_length p s ≤ length s.
Proof. induction s as [|c s IH]; simpl; [lia|]. destruct (p c); lia. Qed.

(** Where a run stops: at the end of the text or at a character the
    run does not take. *)
Lemma run_length_stop p s :
  ∀ c, head (drop (run_length p s) s) = Some c → p c = false.
Proof.
  induction s as [|d s IH]; intros c; simpl; [done|].
  destruct (p d) eqn:Hd; simpl; [apply IH|]. by intros [= <-].
Qed.

(** The engine on the blanks and the group after a label: all the
    blanks, then everything up to the end of the line. *)
Lemma tail_engine s g :
  match_at ic (Cat (star Space) (Cat (Group 1 (star Any)) Empty)) s g
    (λ s' g', Some (s', g'))
  = Some (drop (run_length (cs_match ic Any) (drop (run_length isspace s) s))
            (drop (run_length isspace s) s),
          <[1 := take (run_length (cs_match ic Any)
                         (drop (run_length isspace s) s))
                   (drop (run_length isspace s) s)]> g).
Proof.
  cbn [match_at star greedy].
  apply backoff_first; [apply Nat.le_0_l|].
  apply backoff_first; [apply Nat.le_0_l|]. do 3 f_equal.
  pose proof (run_length_le (cs_match ic Any)
                (drop (run_length (cs_match ic Space) s) s)) as Hle.
  change (cs_match ic Space) with isspace in *.
  rewrite length_drop in Hle. rewrite !length_drop. f_equal. lia.
Qed.

(** A stretch of characters of one kind that ends where the kind
    ends is the only such stretch. *)
Lemma longest_stretch_unique (P : N → Prop) xs ys r1 r2 :
  Forall P xs → Forall P ys →
  (∀ c, head r1 = Some c → ¬ P c) →
  (∀ c, head r2 = Some c → ¬ P c) →
  xs ++ r1 = ys ++ r2 →
  xs = ys ∧ r1 = r2.
Proof.
  intros Hxs. revert ys.
  induction Hxs as [|x xs Hx _ IH]; intros ys Hys H1 H2 Heq.
  - destruct Hys as [|y ys Hy _]; [done|].
    simpl in Heq. subst r1. by destruct (H1 y eq_refl).
  - destruct Hys as [|y ys Hy Hys].
    + simpl in Heq. subst r2. by destruct (H2 x eq_refl).
    + simpl in Heq. injection Heq as -> Heq.
      destruct (IH ys Hys H1 H2 Heq) as [-> ->]. done.
Qed.

(** What a labelled pattern finds: the first stretch of the text that
    reads as the label, all the blanks after it, and the rest of the
    line reached there as the group. *)
Lemma labelled_field_found label text m :
  re_search (seq_of [lit label; star Space; Group 1 (star Any)]) text ic
    = Some m →
  ∃ before lab blanks g after,
    text = before ++ lab ++ blanks ++ g ++ after ∧
    group m 1 = Some g ∧
    Forall2 (λ p c, lit_match ic p c = true) (str label) lab ∧
    (∀ before' lab' after',
       text = before' ++ lab' ++ after' →
       Forall2 (λ p c, lit_match ic p c = true) (str label) lab' →
       length before ≤ length before') ∧
    Forall (λ c, isspace c = true) blanks ∧
    (∀ c, head (g ++ after) = Some c → isspace c = false) ∧
    (0x0A%N ∉ g) ∧
    (∀ c, head after = Some c → c = 0x0A%N).
Proof.
  intros Hs.
  destruct (re_search_leftmost _ _ _ _ Hs)
    as (pre2 & rest2 & s2 & _ & Hstart2 & _ & Hleft).
  apply search_from_first in Hs as (pre & rest & s' & -> & Hstart & Hm).
  change (seq_of [lit label; star Space; Group 1 (star Any)])
    with (Cat (lit label) (Cat (star Space) (Cat (Group 1 (star Any)) Empty)))
    in Hm, Hleft.
  cbn [match_at] in Hm. apply match_at_sound in Hm as (s1 & g1 & Hlit & Hm).
  apply lit_matches_inv in Hlit as (lab & -> & -> & Hlab).
  change (match_at ic (Cat (star Space) (Cat (Group 1 (star Any)) Empty)) s1 ∅
            (λ s' g', Some (s', g')) = Some (s', m_groups m)) in Hm.
  rewrite tail_engine in Hm. injection Hm as _ Hgroups.
  set (a := run_length isspace s1) in *.
  set (b := run_length (cs_match ic Any) (drop a s1)) in *.
  destruct (run_length_take isspace s1 a) as [Hblanks _]; [done|].
  destruct (run_length_take (cs_match ic Any) (drop a s1) b) as [Hany _]; [done|].
  exists pre, lab, (take a s1), (take b (drop a s1)), (drop b (drop a s1)).
  split_and!.
  - by rewrite !take_drop.
  - unfold group. by rewrite <- Hgroups, lookup_insert_eq.
  - done.
  - intros before' lab' after' Htext Hlab'.
    destruct (decide (length pre ≤ length before')) as [|Hlt]; [done|].
    exfalso. apply (Hleft before' (lab' ++ after') after' (<[1 := []]> ∅) Htext).
    { simpl in Hstart, Hstart2. lia. }
    econstructor; [by apply lit_matches|].
    econstructor; [by apply (matches_repeat ic 0 None Space [] after') |].
    econstructor; [|constructor].
    apply (matches_group ic 1 (star Any) [] after').
    by apply (matches_repeat ic 0 None Any [] after').
  - done.
  - intros c Hc. rewrite take_drop in Hc.
    by apply (run_length_stop isspace s1).
  - intros Hin. rewrite Forall_forall in Hany. specialize (Hany _ Hin). done.
  - intros c Hc. apply (run_length_stop (cs_match ic Any)) in Hc.
    simpl in Hc. apply negb_false_iff in Hc. by apply N.eqb_eq in Hc.
Qed.

End LabelFacts.

Section LabelledFields.
Import Py.
Context `{UnicodeData}.

Lemma labelled_field_value text (r : row) field label :
  extracted text r
    (field, seq_of [lit label; star Space; Group 1 (star Any)]) →
  ∃ v, r !! field = Some v ∧
       ((v = str "N/A" ∧
         ∀ before lab after, text = before ++ lab ++ after →
                             ¬ reads_as label lab) ∨
        line_after_label text label v).
Proof.
  unfold extracted. cbn [fst snd].
  destruct (re_search _ text true) as [m|] eqn:Hs.
  - intros (g & Hg & Hv). exists (strip g). split; [done|]. right.
    apply labelled_field_found in Hs
      as (before & lab & blanks & g' & after & Htext & Hg' & Hlab & Hfirst
          & Hblanks & Hhead & Hline & Hafter).
    rewrite Hg in Hg'. injection Hg' as <-.
    by exists before, lab, blanks, g, after.
  - intros Hv. exists (str "N/A"). split; [done|]. left. split; [done|].
    intros before lab after Htext Hlab.
    apply (proj1 (re_search_none_iff _ _ _) Hs before (lab ++ after) after
             (<[1 := []]> ∅) Htext).
    change (seq_of [lit label; star Space; Group 1 (star Any)])
      with (Cat (lit label) (Cat (star Space) (Cat (Group 1 (star Any)) Empty))).
    econstructor; [by apply lit_matches|].
    econstructor; [by apply (matches_repeat true 0 None Space [] after) |].
    econstructor; [|constructor].
    apply (matches_group true 1 (star Any) [] after).
    by apply (matches_repeat true 0 None Any [] after).
Qed.

(** What stands after the first label is one value: the words of
    [line_after_label] leave no choice. *)
Lemma line_after_label_unique text label v v' :
  line_after_label text label v → line_after_label text label v' → v = v'.
Proof.
  intros (b1 & l1 & bl1 & g1 & a1 & Ht1 & Hl1 & Hf1 & Hb1 & Hh1 & Hg1 & Ha1 & ->)
         (b2 & l2 & bl2 & g2 & a2 & Ht2 & Hl2 & Hf2 & Hb2 & Hh2 & Hg2 & Ha2 & ->).
  pose proof (Hf1 _ _ _ Ht2 Hl2) as Hle1.
  pose proof (Hf2 _ _ _ Ht1 Hl1) as Hle2.
  rewrite Ht1 in Ht2.
  apply app_inj_1 in Ht2 as [-> Ht2]; [|lia].
  apply app_inj_1 in Ht2 as [-> Ht2].
  2:{ apply Forall2_length in Hl1, Hl2. congruence. }
  apply (longest_stretch_unique (λ c, isspace c = true)) in Ht2
    as [-> Ht2]; [|done|done|..].
  2:{ intros c Hc. rewrite (Hh1 c Hc). done. }
  2:{ intros c Hc. rewrite (Hh2 c Hc). done. }
  apply (longest_stretch_unique (λ c, c ≠ 0x0A%N)) in Ht2 as [-> _].
  - done.
  - apply Forall_forall. by intros c Hc ->.
  - apply Forall_forall. by intros c Hc ->.
  - intros c Hc Hne. by apply Hne, Ha1.
  - intros c Hc Hne. by apply Hne, Ha2.
Qed.

(** X10.  Each of the twelve labelled fields holds ["N/A"] when the
    text reads as its label nowhere, and otherwise what stands after
    the first place that reads as the label: all the blanks after the
    label are skipped, line ends among them (so a label with nothing
    after it on its line takes the next line that is not blank), and
    the line reached there, up to its end and stripped, is the value.
    [line_after_label_unique] shows that these words fix the value. *)
Theorem labelled_fields_hold_the_rest_of_the_line (text : pystr) :
  ∃ r : row,
    ticket_app.parse_fields text = Ok r ∧
    ticket_sorter.parse_fields text = Ok r ∧
    Forall (λ fl, ∃ v, r !! fl.1 = Some v ∧
              ((v = str "N/A" ∧
                ∀ before lab after, text = before ++ lab ++ after →
                                    ¬ reads_as fl.2 lab) ∨
               line_after_label text fl.2 v))
      labelled_fields.
Proof.
  destruct (app_parse_fields_spec text) as (r & Hr & _ & Hall).
  exists r. split_and!; [done|done|].
  rewrite Forall_forall in Hall.
  unfold labelled_fields.
  repeat (apply Forall_cons; split); [..|by constructor]; cbv beta; cbn [fst snd];
    apply labelled_field_value with (text := text); apply Hall;
    unfold ticket_app.patterns; repeat constructor.
Qed.

End LabelledFields.

(** A label with nothing after it on its line: the value is the next
    line. *)
Example label_value_on_the_next_line :
  match @ticket_app.parse_fields ascii_tables
          (Py.str "Crew:" ++ [0x0A%N] ++ Py.str "John") with
  | Py.Ok r => r !! "Crew"
  | Py.Raise _ => None
  end = Some (Py.str "John").
Proof. vm_compute. reflexivity. Qed.

(** ** From the click to the spreadsheet *)
Section DeliverFacts.
Import Py Worker Gui.
Context `{UnicodeData} `{Engines}.
Variable handle_finished : list row → pystr → exc () → window → window.
Variable save_path : pystr.
Variable written : exc ().

Lemma deliver_app t1 t2 w :
  deliver handle_finished save_path written (t1 ++ t2) w
  = deliver handle_finished save_path written t2
      (deliver handle_finished save_path written t1 w).
Proof. apply foldl_app. Qed.

(** Signals other than [finished] touch the log and the bar only. *)
Lemma deliver_before_finished t :
  finished_lists t = [] →
  ∀ w, deliver handle_finished save_path written t w
       = {| btn_upload_enabled := btn_upload_enabled w;
            pbar := default (pbar w) (last (progress_values t));
            log_output := log_output w ++ status_lines t;
            workers := workers w |}.
Proof.
  induction t as [|e t IH]; intros Hfin w.
  - simpl. rewrite app_nil_r. by destruct w.
  - change (deliver handle_finished save_path written (e :: t) w)
      with (deliver handle_finished save_path written t
              (deliver_signal handle_finished save_path written w e)).
    destruct e as [p|p|img|s|v|rows];
      try (rewrite IH by done; done).
    + rewrite IH by done.
      unfold deliver_signal, log_append;
        cbn [btn_upload_enabled pbar log_output workers].
      change (progress_values (Status s :: t)) with (progress_values t).
      change (status_lines (Status s :: t)) with (s :: status_lines t).
      by rewrite <- app_assoc.
    + rewrite IH by done.
      unfold deliver_signal, set_value;
        cbn [btn_upload_enabled pbar log_output workers].
      change (progress_values (Progress v :: t)) with (v :: progress_values t).
      change (status_lines (Progress v :: t)) with (status_lines t).
      rewrite last_cons. by destruct (last (progress_values t)).
Qed.

(** What both files' [handle_finished] do. *)
Hypothesis finished_slot : ∀ results sp wr w,
  btn_upload_enabled (handle_finished results sp wr w) = true ∧
  workers (handle_finished results sp wr w) = workers w ∧
  pbar (handle_finished results sp wr w) = pbar w ∧
  ∃ tail, log_output (handle_finished results sp wr w) = log_output w ++ tail ∧
          length tail ≤ 1 ∧ (results = [] → length tail = 1).

Variable handle_upload : list pystr → window → window.
Hypothesis upload_slot : ∀ file files w,
  handle_upload (file :: files) w
  = worker_start (set_value 0 (log_clear (set_enabled false w))).

Variable process_file : pystr → io (list row).
Hypothesis only_calls :
  ∀ path, Forall (λ e, is_call e = true) (process_file path).1.

Lemma last_progress n :
  0 < n → last ((λ k, prog_val k n) <$> seq 1 n) = Some (prog_val n n).
Proof.
  intros Hn. destruct n as [|m]; [lia|].
  rewrite seq_S, fmap_app. cbn [fmap list_fmap]. by rewrite last_snoc.
Qed.

Lemma upload_run_finish file files w :
  let paths := file :: files in
  let w' := deliver handle_finished save_path written
              (worker_run process_file paths).1 (handle_upload paths w) in
  btn_upload_enabled w' = true ∧
  workers w' = workers w ∧
  pbar w' = prog_val (length paths) (length paths) ∧
  ∃ tail, log_output w' = status_lines (worker_run process_file paths).1 ++ tail ∧
          length tail ≤ 1 ∧
          (paths ≫= returned_rows process_file = [] → length tail = 1).
Proof using finished_slot upload_slot only_calls.
  intros paths w'. subst w' paths. rewrite worker_run_trace. cbn [fst].
  rewrite deliver_app, upload_slot.
  rewrite (deliver_before_finished
             (files_events process_file (length (file :: files)) 1 (file :: files)))
    by (by apply files_events_finished).
  rewrite (files_events_progress _ _ _ only_calls).
  rewrite last_progress by (simpl; lia).
  rewrite status_lines_app.
  change (status_lines [Finished ((file :: files) ≫= returned_rows process_file)])
    with (@nil pystr).
  rewrite app_nil_r.
  cbn [deliver foldl deliver_signal].
  match goal with
  | |- context [handle_finished ?res ?sp ?wr ?w0] =>
      destruct (finished_slot res sp wr w0)
        as (Hbtn & Hworkers & Hbar & tail & Hlog & Hlen & Hfail)
  end.
  rewrite Hbtn, Hworkers, Hbar, Hlog. split_and!; [done|done|done|].
  exists tail. by split_and!.
Qed.

End DeliverFacts.

Section Cycle.
Import Py Worker Gui.
Context `{UnicodeData} `{Engines}.

Lemma app_finished_slot results sp wr w :
  btn_upload_enabled (ticket_app.handle_finished results sp wr w) = true ∧
  workers (ticket_app.handle_finished results sp wr w) = workers w ∧
  pbar (ticket_app.handle_finished results sp wr w) = pbar w ∧
  ∃ tail, log_output (ticket_app.handle_finished results sp wr w)
          = log_output w ++ tail ∧
          length tail ≤ 1 ∧ (results = [] → length tail = 1).
Proof.
  unfold ticket_app.handle_finished.
  destruct results as [|r results].
  { split_and!; try done. by eexists [_]. }
  destruct sp as [|c sp].
  { split_and!; try done. exists []. simpl. rewrite app_nil_r.
    split_and!; [done|lia|done]. }
  destruct wr; (split_and!; try done; by eexists [_]).
Qed.

Lemma sorter_finished_slot results sp wr w :
  btn_upload_enabled (ticket_sorter.handle_finished results sp wr w) = true ∧
  workers (ticket_sorter.handle_finished results sp wr w) = workers w ∧
  pbar (ticket_sorter.handle_finished results sp wr w) = pbar w ∧
  ∃ tail, log_output (ticket_sorter.handle_finished results sp wr w)
          = log_output w ++ tail ∧
          length tail ≤ 1 ∧ (results = [] → length tail = 1).
Proof.
  unfold ticket_sorter.handle_finished.
  destruct results as [|r results].
  { split_and!; try done. by eexists [_]. }
  destruct sp as [|c sp].
  { split_and!; try done. exists []. simpl. rewrite app_nil_r.
    split_and!; [done|lia|done]. }
  destruct wr.
  - split_and!; try done. by eexists [_].
  - split_and!; try done. exists []. simpl. rewrite app_nil_r.
    split_and!; [done|lia|done].
Qed.

(** X11.  A whole upload: the click with a selection that is not
    empty, the signals of the run delivered in order, [handle_finished]
    at the end.  Afterwards the button is enabled again, no more worker
    runs than before, the progress bar was last set to the last
    progress value, and the texts the program passed to
    [log_output.append] since the [clear()] of [handle_upload] are the
    status lines of this run, in order, followed by at most one closing
    line, which is there whenever no row was extracted. *)
Theorem upload_run_finish_cycle (w : window) (file : pystr)
    (files : list pystr) (save_path : pystr) (written : exc ()) :
  (let paths := file :: files in
   let w' := deliver ticket_app.handle_finished save_path written
               (ticket_app.run paths).1 (ticket_app.handle_upload paths w) in
   btn_upload_enabled w' = true ∧
   workers w' = workers w ∧
   pbar w' = prog_val (length paths) (length paths) ∧
   ∃ tail, log_output w' = status_lines (ticket_app.run paths).1 ++ tail ∧
           length tail ≤ 1 ∧
           (paths ≫= returned_rows ticket_app.process_file = [] →
            length tail = 1)) ∧
  (let paths := file :: files in
   let w' := deliver ticket_sorter.handle_finished save_path written
               (ticket_sorter.run paths).1 (ticket_sorter.handle_upload paths w) in
   btn_upload_enabled w' = true ∧
   workers w' = workers w ∧
   pbar w' = prog_val (length paths) (length paths) ∧
   ∃ tail, log_output w' = status_lines (ticket_sorter.run paths).1 ++ tail ∧
           length tail ≤ 1 ∧
           (paths ≫= returned_rows ticket_sorter.process_file = [] →
            length tail = 1)).
Proof.
  split.
  - apply (upload_run_finish ticket_app.handle_finished save_path written
             app_finished_slot ticket_app.handle_upload
             (λ _ _ _, eq_refl) ticket_app.process_file
             app_process_file_calls).
  - apply (upload_run_finish ticket_sorter.handle_finished save_path written
             sorter_finished_slot ticket_sorter.handle_upload
             (λ _ _ _, eq_refl) ticket_sorter.process_file
             sorter_process_file_calls).
Qed.

End Cycle.

Section Execution.
Import Py Worker Gui.
Context `{UnicodeData} `{Engines}.
Variable handle_upload : list pystr → window → window.
Variable handle_finished : list row → pystr → exc () → window → window.
Variable save_path : pystr.
Variable written : exc ().

Lemma steps_app w l w' l' w'' :
  steps handle_upload handle_finished w l w' →
  steps handle_upload handle_finished w' l' w'' →
  steps handle_upload handle_finished w (l ++ l') w''.
Proof.
  induction 1 as [w|w a w1 l w2 Hstep _ IH]; intros Hrest; [done|].
  simpl. econstructor; [done|]. by apply IH.
Qed.

Lemma signals_app (t1 t2 : list event) :
  signals save_path written (t1 ++ t2)
  = signals save_path written t1 ++ signals save_path written t2.
Proof. apply omap_app. Qed.

(** The signals before [finished] are steps of the loop, one each,
    while a worker runs; the calls to the engines are none. *)
Lemma deliver_steps t :
  finished_lists t = [] →
  ∀ w, 0 < workers w →
       steps handle_upload handle_finished w (signals save_path written t)
         (deliver handle_finished save_path written t w).
Proof.
  induction t as [|e t IH]; intros Hfin w Hrun; [constructor|].
  change (deliver handle_finished save_path written (e :: t) w)
    with (deliver handle_finished save_path written t
            (deliver_signal handle_finished save_path written w e)).
  destruct e as [p|p|img|s|v|rows]; try (by apply IH); [| |done].
  - change (signals save_path written (Status s :: t))
      with (StatusSignal s :: signals save_path written t).
    econstructor; [by apply step_status|]. by apply IH.
  - change (signals save_path written (Progress v :: t))
      with (ProgressSignal v :: signals save_path written t).
    econstructor; [by apply step_progress|]. by apply IH.
Qed.

Lemma run_steps process_file paths w :
  (∀ path, Forall (λ e, is_call e = true) (process_file path).1) →
  0 < workers w →
  steps handle_upload handle_finished w
    (signals save_path written (worker_run process_file paths).1)
    (deliver handle_finished save_path written
       (worker_run process_file paths).1 w).
Proof.
  intros Hcalls Hrun. rewrite worker_run_trace. cbn [fst].
  rewrite signals_app, deliver_app.
  eapply steps_app.
  - apply deliver_steps; [by apply files_events_finished|done].
  - cbn [deliver foldl deliver_signal signals omap signal].
    econstructor; [|constructor].
    apply step_finished.
    rewrite deliver_before_finished by (by apply files_events_finished).
    done.
Qed.

End Execution.

Section ExecutionClaim.
Import Py Worker Gui.
Context `{UnicodeData} `{Engines}.

(** X12.  A whole upload is a stretch of the event loop.  With the
    button enabled, the click with a selection that is not empty and
    then the signals of the run, in the order the worker emits them,
    are steps the loop takes one after another: the click finds the
    button enabled, every signal of the worker arrives while its worker
    is still counted as running, and [finished], the last of them, ends
    in the window that delivering the signals to the connected slots
    gives. *)
Theorem upload_cycle_is_an_execution (w : window) (file : pystr)
    (files : list pystr) (save_path : pystr) (written : exc ()) :
  btn_upload_enabled w = true →
  steps ticket_app.handle_upload ticket_app.handle_finished w
    (Clicked (file :: files)
     :: signals save_path written (ticket_app.run (file :: files)).1)
    (deliver ticket_app.handle_finished save_path written
       (ticket_app.run (file :: files)).1
       (ticket_app.handle_upload (file :: files) w)) ∧
  steps ticket_sorter.handle_upload ticket_sorter.handle_finished w
    (Clicked (file :: files)
     :: signals save_path written (ticket_sorter.run (file :: files)).1)
    (deliver ticket_sorter.handle_finished save_path written
       (ticket_sorter.run (file :: files)).1
       (ticket_sorter.handle_upload (file :: files) w)).
Proof.
  intros Hon. split.
  - econstructor; [by apply step_clicked|].
    apply run_steps; [apply app_process_file_calls|simpl; lia].
  - econstructor; [by apply step_clicked|].
    apply run_steps; [apply sorter_process_file_calls|simpl; lia].
Qed.

End ExecutionClaim.

Lemma upload_cycle_is_an_execution_witness :
  Gui.btn_upload_enabled fresh_window = true ∧
  Gui.steps ticket_app.handle_upload ticket_app.handle_finished fresh_window
    (Gui.Clicked [Py.str "ok.png"]
     :: Gui.signals [] (Py.Ok ())
          (@ticket_app.run ascii_tables desk [Py.str "ok.png"]).1)
    (Gui.deliver ticket_app.handle_finished [] (Py.Ok ())
       (@ticket_app.run ascii_tables desk [Py.str "ok.png"]).1
       (ticket_app.handle_upload [Py.str "ok.png"] fresh_window)).
Proof.
  split; [reflexivity|].
  apply (proj1 (@upload_cycle_is_an_execution ascii_tables desk fresh_window
                  (Py.str "ok.png") [] [] (Py.Ok ()) eq_refl)).
Defined.

(** The signals of that upload: the status line, the progress value
    and [finished]; with the click, four steps. *)
Example upload_of_one_image_has_three_signals :
  length (Gui.signals [] (Py.Ok ())
            (@ticket_app.run ascii_tables desk [Py.str "ok.png"]).1) = 3.
Proof. vm_compute. reflexivity. Qed.

(** ** The last progress value *)
Section LastProgress.
Import Py Worker.

Lemma digits2_pos_size p : digits2_pos p = Pos.size p.
Proof. induction p as [p IH|p IH|]; simpl; by rewrite ?IH. Qed.

Lemma digits2_pos_shifted p k :
  digits2_pos (Pos.iter xO p k) = (digits2_pos p + k)%positive.
Proof.
  induction k as [|k IH] using Pos.peano_ind.
  - simpl. by rewrite Pos.add_1_r.
  - rewrite Pos.iter_succ. simpl. rewrite IH. by rewrite Pos.add_succ_r.
Qed.

(** Below 2^53 a positive integer has at most 53 binary digits. *)
Lemma digits2_pos_small p :
  (Z.pos p < 2 ^ 53)%Z → (Z.pos (digits2_pos p) <= 53)%Z.
Proof.
  intros Hp. rewrite digits2_pos_size.
  pose proof (Pos.size_le p) as Hle.
  destruct (Z.le_gt_cases (Z.pos (Pos.size p)) 53) as [|Hgt]; [done|].
  exfalso.
  assert (2 ^ 54 <= 2 ^ Z.pos (Pos.size p))%Z as Hpow
    by (apply Z.pow_le_mono_r; lia).
  assert (Z.pos (2 ^ Pos.size p) <= Z.pos p~0)%Z as Hle' by exact Hle.
  rewrite Pos2Z.inj_pow in Hle'. lia.
Qed.

(** A mantissa of 53 digits with an exponent in range is a double as
    it stands. *)
Lemma round_exact m e :
  digits2_pos m = 53%positive → (-1074 <= e <= 971)%Z →
  binary_round_aux prec emax false (Z.pos m) e loc_Exact
  = S754_finite false m e.
Proof.
  intros Hm He. unfold binary_round_aux, shr_fexp.
  cbn [Zdigits2 shr_record_of_loc]. rewrite Hm.
  replace (fexp prec emax (53 + e) - e)%Z with 0%Z
    by (unfold fexp, emin, prec, emax; lia).
  cbn [shr loc_of_shr_record shr_m shr_r shr_s round_nearest_even
       Zdigits2 shr_record_of_loc].
  rewrite Hm.
  replace (fexp prec emax (53 + e) - e)%Z with 0%Z
    by (unfold fexp, emin, prec, emax; lia).
  cbn [shr shr_m].
  replace (e <=? emax - prec)%Z with true; [done|].
  symmetry. apply Z.leb_le. unfold emax, prec. lia.
Qed.

(** The double of a positive integer below 2^53 is a finite number. *)
Lemma normalize_small p :
  (Z.pos p < 2 ^ 53)%Z →
  ∃ m e, binary_normalize prec emax (Z.pos p) 0 false = S754_finite false m e.
Proof.
  intros Hp. pose proof (digits2_pos_small p Hp) as Hd.
  unfold binary_normalize, binary_round, shl_align.
  replace (fexp prec emax (Z.pos (digits2_pos p) + 0))
    with (Z.pos (digits2_pos p) - 53)%Z
    by (unfold fexp, emin, prec, emax; lia).
  destruct (Z.pos (digits2_pos p) - 53 - 0)%Z as [|k|k] eqn:Hk; [|lia|].
  - exists p, 0%Z. apply round_exact; [|lia].
    assert (Z.pos (digits2_pos p) = 53)%Z as Heq by lia. by injection Heq.
  - exists (Pos.iter xO p k), (Z.pos (digits2_pos p) - 53)%Z.
    apply round_exact; [|lia]. rewrite digits2_pos_shifted.
    assert (Z.pos (digits2_pos p + k) = 53)%Z as Heq
      by (rewrite Pos2Z.inj_add; lia).
    by injection Heq.
Qed.

(** A finite double divided by itself is 1. *)
Lemma SFdiv_self s m e :
  SFdiv prec emax (S754_finite s m e) (S754_finite s m e)
  = S754_finite false 4503599627370496 (-52).
Proof.
  unfold SFdiv, SFdiv_core_binary.
  replace (Zdigits2 (Z.pos m) + e - (Zdigits2 (Z.pos m) + e))%Z with 0%Z by lia.
  replace (e - e)%Z with 0%Z by lia.
  change (Z.min (fexp prec emax 0) 0) with (-53)%Z.
  change (0 - -53)%Z with 53%Z. cbv iota.
  assert (Z.div_eucl (Z.shiftl (Z.pos m) 53) (Z.pos m) = (2 ^ 53, 0)%Z) as ->.
  { rewrite Z.shiftl_mul_pow2 by lia.
    pose proof (Z.div_mul (2 ^ 53) (Z.pos m)) as Hq.
    pose proof (Z.mod_mul (2 ^ 53) (Z.pos m)) as Hr.
    rewrite (Z.mul_comm (Z.pos m)).
    unfold Z.div, Z.modulo in Hq, Hr.
    destruct (Z.div_eucl (2 ^ 53 * Z.pos m) (Z.pos m)) as [q r].
    by rewrite Hq, Hr. }
  replace (new_location (Z.pos m) 0) with loc_Exact
    by (unfold new_location; by destruct (Z.even (Z.pos m))).
  by destruct s.
Qed.

Lemma float_of_int_finite n :
  0 < n → (Z.of_nat n < 2 ^ 53)%Z →
  ∃ m e, Prim2SF (float_of_int (Z.of_nat n)) = S754_finite false m e.
Proof.
  intros Hn Hsmall. unfold float_of_int.
  assert (binary_normalize prec emax (Z.of_nat n) 0 false
          = Prim2SF (of_uint63 (Uint63.of_Z (Z.of_nat n)))) as Hvalid.
  { rewrite of_uint63_spec, Uint63.of_Z_spec, Z.mod_small; [done|].
    change Uint63.wB with (2 ^ 63)%Z. lia. }
  rewrite Prim2SF_SF2Prim by (rewrite Hvalid; apply Prim2SF_valid).
  destruct (Z.of_nat n) as [|p|p] eqn:Hz; [lia| |lia].
  by apply normalize_small.
Qed.

(** X13.  For a list of fewer than 2^53 files the last progress value
    of a run, the one emitted after the last file, is 100. *)
Theorem last_progress_value_is_100 `{UnicodeData} `{Engines}
    (file_paths : list pystr) :
  0 < length file_paths → (Z.of_nat (length file_paths) < 2 ^ 53)%Z →
  last (progress_values (ticket_app.run file_paths).1) = Some 100%Z ∧
  last (progress_values (ticket_sorter.run file_paths).1) = Some 100%Z.
Proof.
  intros Hn Hsmall.
  destruct (run_progress_values file_paths) as [-> ->].
  assert (prog_val (length file_paths) (length file_paths) = 100%Z) as Hlast.
  { unfold prog_val, int_of_float, truediv.
    rewrite FloatAxioms.mul_spec, FloatAxioms.div_spec.
    destruct (float_of_int_finite _ Hn Hsmall) as (m & e & ->).
    unfold SF64div. rewrite SFdiv_self. by vm_compute. }
  destruct (length file_paths) as [|k] eqn:Hlen; [lia|].
  rewrite seq_S, fmap_app. cbn [fmap list_fmap]. rewrite last_snoc.
  change (1 + k) with (S k). by rewrite Hlast.
Qed.

End LastProgress.

Lemma last_progress_value_is_100_witness :
  last (Worker.progress_values
          (@ticket_app.run ascii_tables desk [Py.str "ok.png"]).1) = Some 100%Z ∧
  last (Worker.progress_values
          (@ticket_sorter.run ascii_tables desk [Py.str "ok.png"]).1) = Some 100%Z.
Proof.
  apply (@last_progress_value_is_100 ascii_tables desk [Py.str "ok.png"]).
  - simpl. lia.
  - reflexivity.
Defined.
